(** * simple-chat-sample: the racing game server (server.js)

    A shallow embedding of the simulation core of [src/server.js] and of
    the earlier variant of the same server kept in [src/unnamed/part_000].

    Modelling conventions.
    - A JavaScript number is a value of [num]: a rational, one of the two
      infinities, or NaN.  Arithmetic on rationals is exact (binary64
      rounding, overflow and the sign of zero are not modelled); the
      behaviour of NaN and of the infinities follows IEEE 754 / ECMAScript.
    - [Math.sqrt(s) < t] is decided exactly by [sqrt_ltb s t].
    - The player store [players] is an association list in the order in
      which [Object.values] and [for ... in] enumerate the keys.
    - An identifier that names a property of [Object.prototype]
      ([constructor], [__proto__], ...) makes [players[clientId]] the
      inherited function or object.  The earlier variant writes only NaN
      positions on such objects and reads nothing else from them, so its
      model covers them.  In server.js [join_game] writes the status on
      them, which the state does not hold: there the statements on
      identifiers that are not in the store assume
      [Store.inherited clientId = false].
    - A string is its sequence of UTF-8 bytes.
    - Player objects are mutated in place in the source and captured by
      timer closures; every object carries its identity [oid], so that a
      timer finds the object it captured and no other one.
    - [setTimeout] callbacks are kept in the list [timers]; the event
      [Fire k] runs the [k]-th pending callback.  Any pending callback may
      run at any moment, which covers every real schedule.
    - A handler that throws returns [Throw]. *)

From Stdlib Require Import ZArith QArith Qabs Lia Lqa Bool List String Ascii.
From Stdlib Require Import NArith DecimalString DecimalN Permutation Sorted.
Import ListNotations.

Local Open Scope Z_scope.

(** ** JavaScript numbers *)

Inductive num : Type :=
| NaN
| NInf
| Fin (q : Q)
| PInf.

Module Num.

Definition ofZ (z : Z) : num := Fin (inject_Z z).

Definition neg (a : num) : num :=
  match a with
  | NaN => NaN
  | NInf => PInf
  | PInf => NInf
  | Fin q => Fin (Qred (- q))
  end.

Definition add (a b : num) : num :=
  match a, b with
  | NaN, _ | _, NaN => NaN
  | PInf, NInf | NInf, PInf => NaN
  | PInf, _ | _, PInf => PInf
  | NInf, _ | _, NInf => NInf
  | Fin p, Fin q => Fin (Qred (p + q))
  end.

Definition sub (a b : num) : num := add a (neg b).

Definition Qltb (p q : Q) : bool := negb (Qle_bool q p).

(** Sign of a number that is not NaN: [true] when it is negative. *)
Definition negative (a : num) : bool :=
  match a with
  | NInf => true
  | Fin q => Qltb q 0
  | _ => false
  end.

Definition is_zero (a : num) : bool :=
  match a with
  | Fin q => Qeq_bool q 0
  | _ => false
  end.

Definition is_inf (a : num) : bool :=
  match a with
  | PInf | NInf => true
  | _ => false
  end.

Definition mul (a b : num) : num :=
  match a, b with
  | NaN, _ | _, NaN => NaN
  | Fin p, Fin q => Fin (Qred (p * q))
  | _, _ =>
      if is_zero a || is_zero b then NaN
      else if xorb (negative a) (negative b) then NInf else PInf
  end.

(** [a < b]; false as soon as one side is NaN. *)
Definition ltb (a b : num) : bool :=
  match a, b with
  | NaN, _ | _, NaN => false
  | _, NInf => false
  | NInf, _ => true
  | PInf, _ => false
  | Fin _, PInf => true
  | Fin p, Fin q => Qltb p q
  end.

Definition gtb (a b : num) : bool := ltb b a.

(** [Math.min] and [Math.max] of two arguments. *)
Definition min (a b : num) : num :=
  match a, b with
  | NaN, _ | _, NaN => NaN
  | _, _ => if ltb b a then b else a
  end.

Definition max (a b : num) : num :=
  match a, b with
  | NaN, _ | _, NaN => NaN
  | _, _ => if ltb a b then b else a
  end.

(** [Math.abs]. *)
Definition abs (a : num) : num :=
  match a with
  | NaN => NaN
  | NInf | PInf => PInf
  | Fin q => Fin (Qred (Qabs q))
  end.

(** [Math.pow(a, 2)]. *)
Definition pow2 (a : num) : num := mul a a.

(** [Math.sqrt(s) < t], decided without computing the root: for
    rationals it is [0 <= s], [0 < t] and [s < t * t]; the root of a
    negative number is NaN and the root of [+Infinity] is [+Infinity]. *)
Definition sqrt_ltb (s t : num) : bool :=
  match s, t with
  | NaN, _ | _, NaN => false
  | NInf, _ | PInf, _ => false
  | Fin _, NInf => false
  | Fin p, PInf => Qle_bool 0 p
  | Fin p, Fin q => Qle_bool 0 p && Qltb 0 q && Qltb p (q * q)
  end.

(** Truthiness of a number: NaN and zero are falsy. *)
Definition truthy (a : num) : bool :=
  match a with
  | NaN => false
  | Fin q => negb (Qeq_bool q 0)
  | _ => true
  end.

(** [a || 0] for a number [a]. *)
Definition orZero (a : num) : num := if truthy a then a else Fin 0.

(** [a <= b]; false as soon as one side is NaN. *)
Definition leb (a b : num) : bool :=
  match a, b with
  | NaN, _ | _, NaN => false
  | NInf, _ => true
  | _, PInf => true
  | PInf, _ => false
  | _, NInf => false
  | Fin p, Fin q => Qle_bool p q
  end.

(** [lo <= a && a <= hi]. *)
Definition within (lo hi a : num) : Prop :=
  leb lo a = true /\ leb a hi = true.

Definition is_nan (a : num) : bool :=
  match a with
  | NaN => true
  | _ => false
  end.

(** [a / b]. *)
Definition div (a b : num) : num :=
  match a, b with
  | NaN, _ | _, NaN => NaN
  | Fin p, Fin q =>
      if Qeq_bool q 0 then
        if Qeq_bool p 0 then NaN else if Qltb p 0 then NInf else PInf
      else Fin (Qred (p / q))
  | Fin _, _ => Fin 0
  | _, Fin _ => if xorb (negative a) (negative b) then NInf else PInf
  | _, _ => NaN
  end.

End Num.

(** ** Values received from clients

    A field of a payload is a JSON scalar or a plain object; [JUndefined]
    is a missing field. *)

Inductive jsval : Type :=
| JUndefined
| JNull
| JBool (b : bool)
| JNumber (n : num)
| JString (s : string)
| JObject.

Module Parse.

Definition code (c : ascii) : Z := Z.of_N (N_of_ascii c).

(** White space and line terminators of one byte. *)
Definition is_space (c : ascii) : bool :=
  let n := code c in ((9 <=? n) && (n <=? 13)) || (n =? 32).

(** A string is its sequence of UTF-8 bytes.  U+00A0 is the only white
    space of two bytes. *)
Definition is_space2 (a b : ascii) : bool :=
  (code a =? 194) && (code b =? 160).

(** The white space of three bytes: U+1680, U+2000 to U+200A, U+2028,
    U+2029, U+202F, U+205F, U+3000 and U+FEFF. *)
Definition is_space3 (a b c : ascii) : bool :=
  let '(x, y, z) := (code a, code b, code c) in
  ((x =? 225) && (y =? 154) && (z =? 128))
  || ((x =? 226) && (y =? 128)
      && (((128 <=? z) && (z <=? 138)) || (z =? 168) || (z =? 169) || (z =? 175)))
  || ((x =? 226) && (y =? 129) && (z =? 159))
  || ((x =? 227) && (y =? 128) && (z =? 128))
  || ((x =? 239) && (y =? 187) && (z =? 191)).

Definition digit_of (c : ascii) : option Z :=
  let n := code c in
  if (48 <=? n) && (n <=? 57) then Some (n - 48) else None.

(** Value of a digit in base 16 (also used for bases 8 and 2). *)
Definition hex_of (c : ascii) : option Z :=
  let n := code c in
  if (48 <=? n) && (n <=? 57) then Some (n - 48)
  else if (97 <=? n) && (n <=? 102) then Some (n - 87)
  else if (65 <=? n) && (n <=? 70) then Some (n - 55)
  else None.

Fixpoint skip_spaces (l : list ascii) : list ascii :=
  match l with
  | [] => []
  | a :: r1 =>
      if is_space a then skip_spaces r1
      else
        match r1 with
        | [] => l
        | b :: r2 =>
            if is_space2 a b then skip_spaces r2
            else
              match r2 with
              | [] => l
              | c :: r3 => if is_space3 a b c then skip_spaces r3 else l
              end
        end
  end.

(** The input without the white space at its end. *)
Fixpoint trim_end (l : list ascii) : list ascii :=
  match skip_spaces l, l with
  | [], _ => []
  | _, c :: r => c :: trim_end r
  | _, [] => []
  end.

(** Longest run of decimal digits: accumulated value, number of digits
    read, and the rest of the input. *)
Fixpoint take_digits (l : list ascii) (acc cnt : Z) : Z * Z * list ascii :=
  match l with
  | c :: r =>
      match digit_of c with
      | Some d => take_digits r (acc * 10 + d) (cnt + 1)
      | None => (acc, cnt, l)
      end
  | [] => (acc, cnt, [])
  end.

Definition take_sign (l : list ascii) : bool * list ascii :=
  match l with
  | "+"%char :: r => (false, r)
  | "-"%char :: r => (true, r)
  | _ => (false, l)
  end.

Fixpoint strip_prefix (p l : list ascii) : option (list ascii) :=
  match p, l with
  | [], _ => Some l
  | a :: p', b :: l' => if Ascii.eqb a b then strip_prefix p' l' else None
  | _ :: _, [] => None
  end.

(** The longest prefix that is a StrDecimalLiteral, with its value. *)
Definition decimal_prefix (l : list ascii) : option (num * list ascii) :=
  let '(sgn, l1) := take_sign l in
  match strip_prefix (list_ascii_of_string "Infinity") l1 with
  | Some r => Some (if sgn then NInf else PInf, r)
  | None =>
      let '(m1, n1, l2) := take_digits l1 0 0 in
      let '(m, n2, l3) :=
        match l2 with
        | "."%char :: r => take_digits r m1 0
        | _ => (m1, 0, l2)
        end in
      if n1 + n2 =? 0 then None
      else
        let '(e, l4) :=
          match l3 with
          | c :: r =>
              if Ascii.eqb c "e" || Ascii.eqb c "E" then
                let '(esgn, r1) := take_sign r in
                let '(ev, en, r2) := take_digits r1 0 0 in
                if en =? 0 then (0, l3)
                else (if esgn then - ev else ev, r2)
              else (0, l3)
          | [] => (0, l3)
          end in
        let mant := inject_Z (if sgn then - m else m) in
        Some (Fin (Qred (mant * Qpower (10 # 1) (e - n2))), l4)
  end.

(** [parseFloat] on a string. *)
Definition parseFloat_string (s : string) : num :=
  match decimal_prefix (skip_spaces (list_ascii_of_string s)) with
  | Some (v, _) => v
  | None => NaN
  end.

Fixpoint digits_in (base : Z) (l : list ascii) (acc : Z) : option Z :=
  match l with
  | [] => Some acc
  | c :: r =>
      match hex_of c with
      | Some d => if d <? base then digits_in base r (acc * base + d) else None
      | None => None
      end
  end.

Definition radix_literal (l : list ascii) : option (Z * list ascii) :=
  match l with
  | "0"%char :: c :: r =>
      if Ascii.eqb c "x" || Ascii.eqb c "X" then Some (16, r)
      else if Ascii.eqb c "o" || Ascii.eqb c "O" then Some (8, r)
      else if Ascii.eqb c "b" || Ascii.eqb c "B" then Some (2, r)
      else None
  | _ => None
  end.

(** StringToNumber: the whole string, white space trimmed, is a numeric
    literal; the empty string is 0. *)
Definition toNumber_string (s : string) : num :=
  let l := trim_end (skip_spaces (list_ascii_of_string s)) in
  match l with
  | [] => Fin 0
  | _ =>
      match radix_literal l with
      | Some (base, (_ :: _) as ds) =>
          match digits_in base ds 0 with
          | Some v => Num.ofZ v
          | None => NaN
          end
      | Some (_, []) => NaN
      | None =>
          match decimal_prefix l with
          | Some (v, []) => v
          | _ => NaN
          end
      end
  end.

End Parse.

(** [parseFloat(v)]: the argument is converted to a string first, so
    only numbers and strings that start with a decimal literal give a
    number. *)
Definition parseFloat (v : jsval) : num :=
  match v with
  | JNumber n => n
  | JString s => Parse.parseFloat_string s
  | JUndefined | JNull | JBool _ | JObject => NaN
  end.

(** ToNumber, the conversion applied by the relational operators. *)
Definition toNumber (v : jsval) : num :=
  match v with
  | JUndefined => NaN
  | JNull => Fin 0
  | JBool b => if b then Fin 1 else Fin 0
  | JNumber n => n
  | JString s => Parse.toNumber_string s
  | JObject => NaN
  end.


(** ** Results of handlers *)

Inductive result (A : Type) : Type :=
| Ok (a : A)
| Throw.

Arguments Ok {A} a.
Arguments Throw {A}.

Definition bind {A B : Type} (r : result A) (f : A -> result B) : result B :=
  match r with
  | Ok a => f a
  | Throw => Throw
  end.

(** ** Objects used as maps

    The keys of a JavaScript object are enumerated with the array indices
    first, in increasing order, then the other strings in the order of
    their creation.  A store is the list of its entries in that order.
    A store holds the own properties of the object.  [inherited] tells
    the keys under which a plain object also finds a property of
    [Object.prototype]: for these [m[k]] is a function or an object, and
    truthy, whether or not [k] is in the store. *)

Module Store.

Definition inherited (k : string) : bool :=
  existsb (String.eqb k)
    ["constructor"; "__proto__"; "toString"; "toLocaleString"; "valueOf";
     "hasOwnProperty"; "isPrototypeOf"; "propertyIsEnumerable";
     "__defineGetter__"; "__defineSetter__"; "__lookupGetter__";
     "__lookupSetter__"]%string.

Section Store.
Context {V : Type}.

Definition t : Type := list (string * V).

Fixpoint lookup (k : string) (m : t) : option V :=
  match m with
  | [] => None
  | (k', v) :: r => if String.eqb k' k then Some v else lookup k r
  end.

Fixpoint all_digits (l : list ascii) : bool :=
  match l with
  | [] => true
  | c :: r =>
      match Parse.digit_of c with
      | Some _ => all_digits r
      | None => false
      end
  end.

(** The array index denoted by a key: a canonical decimal numeral below
    [2^32 - 1]. *)
Definition array_index (k : string) : option Z :=
  match list_ascii_of_string k with
  | [] => None
  | c :: r =>
      if all_digits (c :: r) && (negb (Ascii.eqb c "0") || (List.length r =? 0)%nat)
      then
        let '(v, _, _) := Parse.take_digits (c :: r) 0 0 in
        if v <? 4294967295 then Some v else None
      else None
  end.

(** Position of a new key [k] among the existing entries. *)
Fixpoint insert_new (k : string) (v : V) (m : t) : t :=
  match m with
  | [] => [(k, v)]
  | (k', v') :: r =>
      match array_index k, array_index k' with
      | Some n, Some n' =>
          if n <? n' then (k, v) :: m else (k', v') :: insert_new k v r
      | Some _, None => (k, v) :: m
      | None, _ => (k', v') :: insert_new k v r
      end
  end.

Fixpoint replace (k : string) (v : V) (m : t) : t :=
  match m with
  | [] => []
  | (k', v') :: r =>
      if String.eqb k' k then (k', v) :: r else (k', v') :: replace k v r
  end.

(** [m[k] = v]. *)
Definition set (k : string) (v : V) (m : t) : t :=
  match lookup k m with
  | Some _ => replace k v m
  | None => insert_new k v m
  end.

(** [delete m[k]]. *)
Fixpoint delete (k : string) (m : t) : t :=
  match m with
  | [] => []
  | (k', v') :: r =>
      if String.eqb k' k then delete k r else (k', v') :: delete k r
  end.

(** [Object.values(m)]. *)
Definition values (m : t) : list V := map snd m.

End Store.

Arguments t V : clear implicits.

End Store.


(** ** server.js *)

Module Server.

(** *** Constants *)

Definition MAX_LAP : Z := 2.
Definition COURSE_LENGTH_Z : num := Fin 1000.
Definition TRACK_WIDTH_X : num := Fin 250.
Definition GEKITOTSU_CHARGE_MAX : num := Fin 10.
Definition ACCEL_Z_THRESHOLD : num := Fin 20.
Definition PLAYER_COLLISION_RADIUS : num := Fin 40.

(** *** Data *)

Inductive status : Type := lobby | playing | finished.

(** [mode] is [null] until the first [join_game], then whatever the
    client sent. *)
Inductive mode : Type :=
| mode_null
| solo
| multi
| mode_other (s : string).

Record effects : Type := { speed_x2_active : bool }.

Record player : Type := {
  id : string;
  oid : nat;
  x : num;
  y : num;
  z : num;
  speed : num;
  baseSpeed : num;
  gekitotsuForce : num;
  points : Z;
  lap : Z;
  pstatus : status;
  pmode : mode;
  peffects : effects;
  finishTime : option Z;
  finalRank : option Z;
  totalPoints : Z
}.

Inductive kind : Type :=
| box (points : Z)
| bonus (effect : string).

Record obstacle : Type := {
  otype : kind;
  ox : num;
  oy : num;
  oz : num;
  size : num;
  collided : bool
}.

(** A pending [setTimeout] callback. *)
Inductive action : Type :=
| Reactivate (index : nat)
| ExpireBoost (target : nat).

Record timer : Type := { delay : Z; act : action }.

Record telemetry : Type := { b : jsval; g : jsval; accelerationZ : jsval }.

Record state : Type := {
  players : Store.t player;
  nextPlayerId : N;
  obstacles : list obstacle;
  timers : list timer;
  nextOid : nat
}.

(** *** Field updates *)

Definition set_x (p : player) (v : num) : player :=
  {| id := id p; oid := oid p; x := v; y := y p; z := z p; speed := speed p;
     baseSpeed := baseSpeed p; gekitotsuForce := gekitotsuForce p;
     points := points p; lap := lap p; pstatus := pstatus p; pmode := pmode p;
     peffects := peffects p; finishTime := finishTime p;
     finalRank := finalRank p; totalPoints := totalPoints p |}.

Definition set_z (p : player) (v : num) : player :=
  {| id := id p; oid := oid p; x := x p; y := y p; z := v; speed := speed p;
     baseSpeed := baseSpeed p; gekitotsuForce := gekitotsuForce p;
     points := points p; lap := lap p; pstatus := pstatus p; pmode := pmode p;
     peffects := peffects p; finishTime := finishTime p;
     finalRank := finalRank p; totalPoints := totalPoints p |}.

Definition set_speed (p : player) (v : num) : player :=
  {| id := id p; oid := oid p; x := x p; y := y p; z := z p; speed := v;
     baseSpeed := baseSpeed p; gekitotsuForce := gekitotsuForce p;
     points := points p; lap := lap p; pstatus := pstatus p; pmode := pmode p;
     peffects := peffects p; finishTime := finishTime p;
     finalRank := finalRank p; totalPoints := totalPoints p |}.

Definition set_baseSpeed (p : player) (v : num) : player :=
  {| id := id p; oid := oid p; x := x p; y := y p; z := z p; speed := speed p;
     baseSpeed := v; gekitotsuForce := gekitotsuForce p;
     points := points p; lap := lap p; pstatus := pstatus p; pmode := pmode p;
     peffects := peffects p; finishTime := finishTime p;
     finalRank := finalRank p; totalPoints := totalPoints p |}.

Definition set_gekitotsuForce (p : player) (v : num) : player :=
  {| id := id p; oid := oid p; x := x p; y := y p; z := z p; speed := speed p;
     baseSpeed := baseSpeed p; gekitotsuForce := v;
     points := points p; lap := lap p; pstatus := pstatus p; pmode := pmode p;
     peffects := peffects p; finishTime := finishTime p;
     finalRank := finalRank p; totalPoints := totalPoints p |}.

Definition set_points (p : player) (v : Z) : player :=
  {| id := id p; oid := oid p; x := x p; y := y p; z := z p; speed := speed p;
     baseSpeed := baseSpeed p; gekitotsuForce := gekitotsuForce p;
     points := v; lap := lap p; pstatus := pstatus p; pmode := pmode p;
     peffects := peffects p; finishTime := finishTime p;
     finalRank := finalRank p; totalPoints := totalPoints p |}.

Definition set_lap (p : player) (v : Z) : player :=
  {| id := id p; oid := oid p; x := x p; y := y p; z := z p; speed := speed p;
     baseSpeed := baseSpeed p; gekitotsuForce := gekitotsuForce p;
     points := points p; lap := v; pstatus := pstatus p; pmode := pmode p;
     peffects := peffects p; finishTime := finishTime p;
     finalRank := finalRank p; totalPoints := totalPoints p |}.

Definition set_status (p : player) (v : status) : player :=
  {| id := id p; oid := oid p; x := x p; y := y p; z := z p; speed := speed p;
     baseSpeed := baseSpeed p; gekitotsuForce := gekitotsuForce p;
     points := points p; lap := lap p; pstatus := v; pmode := pmode p;
     peffects := peffects p; finishTime := finishTime p;
     finalRank := finalRank p; totalPoints := totalPoints p |}.

Definition set_mode (p : player) (v : mode) : player :=
  {| id := id p; oid := oid p; x := x p; y := y p; z := z p; speed := speed p;
     baseSpeed := baseSpeed p; gekitotsuForce := gekitotsuForce p;
     points := points p; lap := lap p; pstatus := pstatus p; pmode := v;
     peffects := peffects p; finishTime := finishTime p;
     finalRank := finalRank p; totalPoints := totalPoints p |}.

Definition set_speed_x2_active (p : player) (v : bool) : player :=
  {| id := id p; oid := oid p; x := x p; y := y p; z := z p; speed := speed p;
     baseSpeed := baseSpeed p; gekitotsuForce := gekitotsuForce p;
     points := points p; lap := lap p; pstatus := pstatus p; pmode := pmode p;
     peffects := {| speed_x2_active := v |}; finishTime := finishTime p;
     finalRank := finalRank p; totalPoints := totalPoints p |}.

Definition set_finishTime (p : player) (v : option Z) : player :=
  {| id := id p; oid := oid p; x := x p; y := y p; z := z p; speed := speed p;
     baseSpeed := baseSpeed p; gekitotsuForce := gekitotsuForce p;
     points := points p; lap := lap p; pstatus := pstatus p; pmode := pmode p;
     peffects := peffects p; finishTime := v;
     finalRank := finalRank p; totalPoints := totalPoints p |}.

Definition set_ranking (p : player) (r t : Z) : player :=
  {| id := id p; oid := oid p; x := x p; y := y p; z := z p; speed := speed p;
     baseSpeed := baseSpeed p; gekitotsuForce := gekitotsuForce p;
     points := points p; lap := lap p; pstatus := pstatus p; pmode := pmode p;
     peffects := peffects p; finishTime := finishTime p;
     finalRank := Some r; totalPoints := t |}.

Definition set_collided (o : obstacle) (v : bool) : obstacle :=
  {| otype := otype o; ox := ox o; oy := oy o; oz := oz o; size := size o;
     collided := v |}.

Definition with_players (s : state) (ps : Store.t player) : state :=
  {| players := ps; nextPlayerId := nextPlayerId s; obstacles := obstacles s;
     timers := timers s; nextOid := nextOid s |}.

Definition is_playing (st : status) : bool :=
  match st with playing => true | _ => false end.

Definition is_finished (st : status) : bool :=
  match st with finished => true | _ => false end.

Definition is_lobby (st : status) : bool :=
  match st with lobby => true | _ => false end.

Definition is_multi (m : mode) : bool :=
  match m with multi => true | _ => false end.

(** The obstacles of the course; [collided] is absent at start. *)
Definition obstacles0 : list obstacle :=
  [ {| otype := box 5; ox := Fin 100; oy := Fin 0; oz := Fin (-100);
       size := Fin 30; collided := false |};
    {| otype := box 5; ox := Fin (-150); oy := Fin 0; oz := Fin (-350);
       size := Fin 30; collided := false |};
    {| otype := box 5; ox := Fin 50; oy := Fin 0; oz := Fin (-600);
       size := Fin 30; collided := false |};
    {| otype := box 5; ox := Fin (-200); oy := Fin 0; oz := Fin (-850);
       size := Fin 30; collided := false |};
    {| otype := bonus "speed_x2"; ox := Fin 0; oy := Fin 0; oz := Fin (-500);
       size := Fin 20; collided := false |} ].

Definition init : state :=
  {| players := []; nextPlayerId := 1%N; obstacles := obstacles0;
     timers := []; nextOid := 0%nat |}.

(** *** Distances and collisions *)

(** The argument of [Math.sqrt] in [getDistance]. *)
Definition sqDistance (x1 z1 x2 z2 : num) : num :=
  Num.add (Num.pow2 (Num.sub x1 x2)) (Num.pow2 (Num.sub z1 z2)).

(** [getDistance(p1, p2) < t] for objects at [(x1, z1)] and [(x2, z2)]. *)
Definition getDistance_lt (x1 z1 x2 z2 t : num) : bool :=
  Num.sqrt_ltb (sqDistance x1 z1 x2 z2) t.

Definition checkCollision (p : player) (obs : obstacle) : bool :=
  let distanceThreshold := Num.add (Fin 25) (Num.div (size obs) (Fin 2)) in
  getDistance_lt (x p) (z p) (ox obs) (oz obs) distanceThreshold.

(** *** updateGameLogic, statement by statement *)

(** Lines 64-72: the charge earned by shaking the phone. *)
Definition charge (data : telemetry) (p : player) : player :=
  let currentAccelZ := Num.abs (Num.orZero (parseFloat (accelerationZ data))) in
  if Num.gtb currentAccelZ ACCEL_Z_THRESHOLD then
    set_gekitotsuForce p
      (Num.min (Num.add (gekitotsuForce p) (Fin 2)) GEKITOTSU_CHARGE_MAX)
  else p.

(** Lines 75-81: lateral move and clamp. *)
Definition steer (data : telemetry) (p : player) : player :=
  let beta := Num.orZero (parseFloat (b data)) in
  let moveSpeed := Fin 1 in
  let p1 :=
    set_x p (Num.add (x p) (Num.mul (Num.mul beta moveSpeed) (Fin (1 # 10)))) in
  set_x p1 (Num.max (Num.neg TRACK_WIDTH_X) (Num.min TRACK_WIDTH_X (x p1))).

(** Lines 84-91: speed and forward move. *)
Definition advance (p : player) : player :=
  let p1 := set_baseSpeed p (Fin 3) in
  let p2 :=
    if speed_x2_active (peffects p1) then
      set_speed p1 (Num.mul (baseSpeed p1) (Fin 2))
    else
      set_speed p1
        (Num.add (baseSpeed p1) (Num.mul (gekitotsuForce p1) (Fin (2 # 10)))) in
  set_z p2 (Num.sub (z p2) (speed p2)).

(** Lines 95-117: the callback of [obstacles.forEach] for one obstacle;
    it returns the player, the obstacle and the timers it started. *)
Definition hit (p : player) (index : nat) (obs : obstacle)
  : player * obstacle * list timer :=
  if checkCollision p obs then
    if collided obs then (p, obs, [])
    else
      let obs1 := set_collided obs true in
      let p1 :=
        set_speed p
          (Num.add (speed p) (Num.mul (gekitotsuForce p) (Fin (7 # 10)))) in
      let p2 := set_gekitotsuForce p1 (Fin 0) in
      match otype obs with
      | box pts =>
          (set_points p2 (points p2 + pts), obs1,
           [{| delay := 3000; act := Reactivate index |}])
      | bonus eff =>
          if String.eqb eff "speed_x2" then
            let p3 := set_speed_x2_active p2 true in
            (set_points p3 (points p3 + 20), obs1,
             [{| delay := 5000; act := ExpireBoost (oid p) |}])
          else (p2, obs1, [])
      end
  else (p, obs, []).

Fixpoint obstaclePass (p : player) (index : nat) (l : list obstacle)
  : player * list obstacle * list timer :=
  match l with
  | [] => (p, [], [])
  | obs :: r =>
      let '(p1, obs1, t1) := hit p index obs in
      let '(p2, r2, t2) := obstaclePass p1 (S index) r in
      (p2, obs1 :: r2, t1 ++ t2)
  end.

Definition chargeUp (p : player) : player :=
  set_gekitotsuForce p
    (Num.min (Num.add (gekitotsuForce p) (Fin 2)) GEKITOTSU_CHARGE_MAX).

(** The test of lines 125-126 for the entry [otherId]. *)
Definition clashes (clientId : string) (p : player) (otherId : string)
    (otherPlayer : player) : bool :=
  negb (String.eqb otherId clientId)
  && is_multi (pmode otherPlayer) && is_playing (pstatus otherPlayer)
  && getDistance_lt (x p) (z p) (x otherPlayer) (z otherPlayer)
       PLAYER_COLLISION_RADIUS.

(** Lines 122-136: the loop over the store. *)
Fixpoint clash (clientId : string) (p : player) (l : Store.t player)
  : player * Store.t player :=
  match l with
  | [] => (p, [])
  | (otherId, otherPlayer) :: r =>
      if clashes clientId p otherId otherPlayer then
        let p1 := chargeUp p in
        let p2 := set_speed p1 (Num.max (Fin 1) (Num.mul (speed p1) (Fin (8 # 10)))) in
        let '(p3, r') := clash clientId p2 r in
        (p3, (otherId, chargeUp otherPlayer) :: r')
      else
        let '(p3, r') := clash clientId p r in
        (p3, (otherId, otherPlayer) :: r')
  end.

(** Lines 121-137. *)
Definition playerPass (clientId : string) (p : player) (l : Store.t player)
  : player * Store.t player :=
  if is_multi (pmode p) then clash clientId p l else (p, l).

(** Lines 141-150; [now] is the value of [Date.now()]. *)
Definition lapCheck (now : Z) (p : player) : player :=
  if Num.ltb (z p) (Num.neg COURSE_LENGTH_Z) then
    let p1 := set_lap p (lap p + 1) in
    let p2 := set_z p1 (Num.add (z p1) COURSE_LENGTH_Z) in
    if MAX_LAP <=? lap p2 then
      set_finishTime (set_status p2 finished) (Some now)
    else p2
  else p.

(** The three statements on the player before the collision passes. *)
Definition integrate (data : telemetry) (p : player) : player :=
  advance (steer data (charge data p)).

(** [updateGameLogic(clientId, data)]; a payload that is [undefined] or
    [null] is [None], and reading a field of it throws. *)
Definition updateGameLogic (clientId : string) (data : option telemetry)
    (now : Z) (s : state) : result state :=
  match Store.lookup clientId (players s) with
  | None => Ok s
  | Some p =>
      if negb (is_playing (pstatus p)) then Ok s
      else
        match data with
        | None => Throw
        | Some d =>
            let p1 := integrate d p in
            let '(p2, obs, ts) := obstaclePass p1 0 (obstacles s) in
            let '(p3, others) := playerPass clientId p2 (players s) in
            let p4 := lapCheck now p3 in
            Ok {| players := Store.set clientId p4 others;
                  nextPlayerId := nextPlayerId s;
                  obstacles := obs;
                  timers := timers s ++ ts;
                  nextOid := nextOid s |}
        end
  end.

(** *** calculateRanking *)

(** The comparator passed to [sort]; [null] counts as 0 in a subtraction. *)
Definition compareRank (a b : player) : num :=
  if is_finished (pstatus a) && negb (is_finished (pstatus b)) then Fin (-1)
  else if negb (is_finished (pstatus a)) && is_finished (pstatus b) then Fin 1
  else if is_finished (pstatus a) && is_finished (pstatus b) then
    Num.ofZ (match finishTime a with Some t => t | None => 0 end
             - match finishTime b with Some t => t | None => 0 end)
  else if negb (lap a =? lap b) then Num.ofZ (lap b - lap a)
  else Num.sub (z a) (z b).

(** [Array.prototype.sort] is stable, and every stable sort gives the
    same array for a consistent comparator: [a] is placed after [b] when
    the comparator is positive on [(a, b)]. *)
Fixpoint insert (cmp : player -> player -> num) (a : string * player)
    (l : list (string * player)) : list (string * player) :=
  match l with
  | [] => [a]
  | e :: r =>
      if Num.ltb (Fin 0) (cmp (snd a) (snd e)) then e :: insert cmp a r
      else a :: l
  end.

Fixpoint sort (cmp : player -> player -> num) (l : list (string * player))
  : list (string * player) :=
  match l with
  | [] => []
  | a :: r => insert cmp a (sort cmp r)
  end.

(** The callback of [activePlayers.forEach], from position [index]. *)
Fixpoint assignRanks (len : Z) (index : Z) (l : list (string * player))
  : list (string * player) :=
  match l with
  | [] => []
  | (k, p) :: r =>
      let rankPoint := (len - index) * 100 in
      (k, set_ranking p (index + 1) (points p + rankPoint))
        :: assignRanks len (index + 1) r
  end.

Definition activeEntries (ps : Store.t player) : list (string * player) :=
  filter (fun e => is_multi (pmode (snd e)) && negb (is_lobby (pstatus (snd e))))
    ps.

Definition rankedEntries (ps : Store.t player) : list (string * player) :=
  let activePlayers := sort compareRank (activeEntries ps) in
  assignRanks (Z.of_nat (List.length activePlayers)) 0 activePlayers.

(** The ranked players are the objects of the store: the assignments of
    [finalRank] and [totalPoints] are visible there. *)
Definition writeBack (ranked : list (string * player)) (ps : Store.t player)
  : Store.t player :=
  fold_left (fun m e => Store.replace (fst e) (snd e) m) ranked ps.

(** [calculateRanking()]: the returned array and the state it leaves. *)
Definition calculateRanking (s : state) : list player * state :=
  let ranked := rankedEntries (players s) in
  (map snd ranked, with_players s (writeBack ranked (players s))).

(** *** Handlers *)

Record join_payload : Type := { room : string; jmode : mode }.

Definition newPlayer (clientId : string) (o : nat) : player :=
  {| id := clientId; oid := o; x := Fin 0; y := Fin 0; z := Fin 0;
     speed := Fin 0; baseSpeed := Fin 3; gekitotsuForce := Fin 0;
     points := 0; lap := 0; pstatus := lobby; pmode := mode_null;
     peffects := {| speed_x2_active := false |}; finishTime := None;
     finalRank := None; totalPoints := 0 |}.

(** The identifier chosen at line 190 and the next value of the counter;
    an empty string is falsy. *)
Definition chooseClientId (query : option string) (next : N) : string * N :=
  match query with
  | Some (String c r) => (String c r, next)
  | _ => (("P" ++ NilEmpty.string_of_uint (N.to_uint next))%string, (next + 1)%N)
  end.

(** [io.on('connection')], lines 190-210. *)
Definition connection (query : option string) (s : state) : state :=
  let '(clientId, next) := chooseClientId query (nextPlayerId s) in
  match Store.lookup clientId (players s) with
  | Some _ =>
      {| players := players s; nextPlayerId := next; obstacles := obstacles s;
         timers := timers s; nextOid := nextOid s |}
  | None =>
      {| players := Store.set clientId (newPlayer clientId (nextOid s)) (players s);
         nextPlayerId := next; obstacles := obstacles s;
         timers := timers s; nextOid := S (nextOid s) |}
  end.

(** The assignments of lines 220-226. *)
Definition resetForJoin (m : mode) (p : player) : player :=
  let p1 := set_status p playing in
  let p2 := set_mode p1 m in
  let p3 := set_z p2 (Fin 0) in
  let p4 := set_lap p3 0 in
  let p5 := set_points p4 0 in
  let p6 := set_gekitotsuForce p5 (Fin 0) in
  set_finishTime p6 None.

(** [socket.on('join_game')]: destructuring a missing payload throws,
    and so does the first assignment when the player is not in the store. *)
Definition join_game (clientId : string) (data : option join_payload)
    (s : state) : result state :=
  match data with
  | None => Throw
  | Some d =>
      match Store.lookup clientId (players s) with
      | None => Throw
      | Some p =>
          Ok (with_players s
                (Store.set clientId (resetForJoin (jmode d) p) (players s)))
      end
  end.

(** [socket.on('sensor')]. *)
Definition sensor (clientId : string) (data : option telemetry) (now : Z)
    (s : state) : result state :=
  match Store.lookup clientId (players s) with
  | Some p =>
      if is_playing (pstatus p) then updateGameLogic clientId data now s
      else Ok s
  | None => Ok s
  end.

(** [socket.on('disconnect')]. *)
Definition disconnect (clientId : string) (s : state) : state :=
  with_players s (Store.delete clientId (players s)).

Fixpoint remove_nth {A : Type} (k : nat) (l : list A) : list A :=
  match k, l with
  | _, [] => []
  | O, _ :: r => r
  | S k', a :: r => a :: remove_nth k' r
  end.

Fixpoint update_nth {A : Type} (k : nat) (f : A -> A) (l : list A) : list A :=
  match k, l with
  | _, [] => []
  | O, a :: r => f a :: r
  | S k', a :: r => a :: update_nth k' f r
  end.

(** The body of a timer callback.  The boost callback writes to the
    player object it captured, which may have left the store. *)
Definition runAction (a : action) (s : state) : state :=
  match a with
  | Reactivate index =>
      {| players := players s; nextPlayerId := nextPlayerId s;
         obstacles := update_nth index (fun o => set_collided o false) (obstacles s);
         timers := timers s; nextOid := nextOid s |}
  | ExpireBoost target =>
      with_players s
        (map (fun e =>
                if (oid (snd e) =? target)%nat
                then (fst e, set_speed_x2_active (snd e) false) else e)
             (players s))
  end.

(** The [k]-th pending timer fires. *)
Definition fire (k : nat) (s : state) : state :=
  match nth_error (timers s) k with
  | None => s
  | Some t =>
      runAction (act t)
        {| players := players s; nextPlayerId := nextPlayerId s;
           obstacles := obstacles s; timers := remove_nth k (timers s);
           nextOid := nextOid s |}
  end.

(** *** Events *)

Inductive event : Type :=
| Connect (query : option string)
| JoinGame (clientId : string) (data : option join_payload)
| Sensor (clientId : string) (data : option telemetry) (now : Z)
| Disconnect (clientId : string)
| Fire (k : nat).

Definition step (e : event) (s : state) : result state :=
  match e with
  | Connect query => Ok (connection query s)
  | JoinGame clientId data => join_game clientId data s
  | Sensor clientId data now => sensor clientId data now s
  | Disconnect clientId => Ok (disconnect clientId s)
  | Fire k => Ok (fire k s)
  end.

Fixpoint run (es : list event) (s : state) : result state :=
  match es with
  | [] => Ok s
  | e :: r => bind (step e s) (run r)
  end.

(** States the server can be in. *)
Inductive reachable : state -> Prop :=
| reachable_init : reachable init
| reachable_step s e s' :
    reachable s -> step e s = Ok s' -> reachable s'.

End Server.

(** ** src/unnamed/part_000: the earlier variant of the server

    It has no game status beyond ['connected'], no modes, no clamp of [x],
    no laps, and its obstacles carry no [collided] flag. *)

Module Draft.

Inductive status : Type := connected.

Record player : Type := {
  id : string;
  x : num;
  y : num;
  z : num;
  speed : num;
  gekitotsuForce : num;
  points : Z;
  lap : Z;
  pstatus : status
}.

Inductive kind : Type :=
| box (points : Z) (width height depth : num)
| bonus (effect : string).

Record obstacle : Type := { otype : kind; ox : num; oy : num; oz : num }.

Record telemetry : Type := { b : jsval; g : jsval; accelerationZ : jsval }.

Record state : Type := {
  players : Store.t player;
  nextPlayerId : N
}.

Definition obstacles : list obstacle :=
  [ {| otype := box 5 (Fin 20) (Fin 20) (Fin 20);
       ox := Fin 100; oy := Fin 0; oz := Fin (-100) |};
    {| otype := box 5 (Fin 20) (Fin 20) (Fin 20);
       ox := Fin (-150); oy := Fin 0; oz := Fin (-300) |};
    {| otype := bonus "speed_x2"; ox := Fin 0; oy := Fin 0; oz := Fin (-500) |} ].

Definition init : state := {| players := []; nextPlayerId := 1%N |}.

Definition checkCollision (p : player) (obs : obstacle) : bool :=
  let distanceThreshold := Fin 30 in
  Num.sqrt_ltb
    (Num.add (Num.pow2 (Num.sub (x p) (ox obs))) (Num.pow2 (Num.sub (z p) (oz obs))))
    distanceThreshold.

(** The callback of [obstacles.forEach]. *)
Definition hit (p : player) (obs : obstacle) : player :=
  if checkCollision p obs then
    let speed1 := Num.add (speed p) (Num.mul (gekitotsuForce p) (Fin (5 # 10))) in
    {| id := id p; x := x p; y := y p; z := z p; speed := speed1;
       gekitotsuForce := Fin 0;
       points := match otype obs with
                 | box pts _ _ _ => points p + pts
                 | bonus _ => points p
                 end;
       lap := lap p; pstatus := pstatus p |}
  else p.

(** Lines 46-61. *)
Definition integrate (data : telemetry) (p : player) : player :=
  let beta := parseFloat (b data) in
  let force :=
    if Num.gtb (toNumber (accelerationZ data)) (Fin 15) then
      Num.min (Num.add (gekitotsuForce p) (Fin 1)) (Fin 10)
    else gekitotsuForce p in
  let moveSpeed := Fin (5 # 10) in
  let x1 := Num.add (x p) (Num.mul beta moveSpeed) in
  let speed1 := Num.add (Fin 2) (Num.mul force (Fin (2 # 10))) in
  {| id := id p; x := x1; y := y p; z := Num.sub (z p) speed1; speed := speed1;
     gekitotsuForce := force; points := points p; lap := lap p;
     pstatus := pstatus p |}.

(** [updateGameLogic(clientId, data)]; the loop over the other players
    has an empty body.  When [clientId] is not in the store and names a
    property of [Object.prototype], [players[clientId]] is that function
    or object and the guard [if (!player) return] lets it through:
    reading a field of a missing payload throws; with a payload every
    write goes to that object, which is no player of the store, its
    position is NaN and no collision test on it succeeds. *)
Definition updateGameLogic (clientId : string) (data : option telemetry)
    (s : state) : result state :=
  match Store.lookup clientId (players s) with
  | None =>
      if Store.inherited clientId then
        match data with
        | None => Throw
        | Some _ => Ok s
        end
      else Ok s
  | Some p =>
      match data with
      | None => Throw
      | Some d =>
          let p1 := fold_left hit obstacles (integrate d p) in
          Ok {| players := Store.replace clientId p1 (players s);
                nextPlayerId := nextPlayerId s |}
      end
  end.

Definition newPlayer (clientId : string) : player :=
  {| id := clientId; x := Fin 0; y := Fin 0; z := Fin 0; speed := Fin 0;
     gekitotsuForce := Fin 0; points := 0; lap := 0; pstatus := connected |}.

(** [io.on('connection')]; [players[clientId]] is truthy, and no player
    is created, also when the identifier names a property of
    [Object.prototype]. *)
Definition connection (query : option string) (s : state) : state :=
  let '(clientId, next) :=
    match query with
    | Some (String c r) => (String c r, nextPlayerId s)
    | _ => (("P" ++ NilEmpty.string_of_uint (N.to_uint (nextPlayerId s)))%string,
            (nextPlayerId s + 1)%N)
    end in
  match Store.lookup clientId (players s) with
  | Some _ => {| players := players s; nextPlayerId := next |}
  | None =>
      if Store.inherited clientId then
        {| players := players s; nextPlayerId := next |}
      else
        {| players := Store.set clientId (newPlayer clientId) (players s);
           nextPlayerId := next |}
  end.

(** [socket.on('sensor')]. *)
Definition sensor (clientId : string) (data : option telemetry) (s : state)
  : result state :=
  updateGameLogic clientId data s.

(** [socket.on('disconnect')]. *)
Definition disconnect (clientId : string) (s : state) : state :=
  {| players := Store.delete clientId (players s);
     nextPlayerId := nextPlayerId s |}.

End Draft.

Import Server.

(** ** Vocabulary of the properties *)

(** The fields that neither collision pass writes. *)
Definition same_course (p q : player) : Prop :=
  id p = id q /\ oid p = oid q /\ x p = x q /\ y p = y q /\ z p = z q /\
  baseSpeed p = baseSpeed q /\ lap p = lap q /\ pstatus p = pstatus q /\
  pmode p = pmode q /\ finishTime p = finishTime q /\
  finalRank p = finalRank q /\ totalPoints p = totalPoints q.

(** The player [clientId] after a sensor update of a playing player. *)
Definition afterObstacles (d : telemetry) (p : player) (s : state) : player :=
  fst (fst (obstaclePass (integrate d p) 0 (obstacles s))).

Definition afterPlayers (clientId : string) (d : telemetry) (p : player)
    (s : state) : player :=
  fst (playerPass clientId (afterObstacles d p s) (players s)).

Definition updatedPlayer (clientId : string) (d : telemetry) (now : Z)
    (p : player) (s : state) : player :=
  lapCheck now (afterPlayers clientId d p s).

(** A player who has just joined a multiplayer race. *)
Definition racer (clientId : string) (o : nat) : player :=
  resetForJoin multi (newPlayer clientId o).

(** Two players on the start line of a multiplayer race. *)
Definition two_racers : state :=
  {| players := [("P1"%string, racer "P1" 0); ("P2"%string, racer "P2" 1)];
     nextPlayerId := 3%N; obstacles := obstacles0; timers := [];
     nextOid := 2%nat |}.

Definition calm : telemetry :=
  {| b := JNumber (Fin 0); g := JNumber (Fin 0); accelerationZ := JNumber (Fin 0) |}.

Definition shake : telemetry :=
  {| b := JNumber (Fin 0); g := JUndefined; accelerationZ := JNumber (Fin 25) |}.

(** The second lap of a race: the first player is one step from the line. *)
Definition near_line : state :=
  with_players two_racers
    [("P1"%string, set_lap (set_z (racer "P1" 0) (Fin (-999))) 1);
     ("P2"%string, racer "P2" 1)].


(** A race in which the player steers fully to the right once and then
    joins again. *)
Definition rejoin_trace : list event :=
  [Connect None;
   JoinGame "P1" (Some {| room := "game"; jmode := solo |});
   Sensor "P1" (Some {| b := JNumber (Fin 1000); g := JUndefined;
                        accelerationZ := JUndefined |}) 0;
   JoinGame "P1" (Some {| room := "game"; jmode := solo |})].

(** A sample without the roll field. *)
Definition no_roll : Draft.telemetry :=
  {| Draft.b := JUndefined; Draft.g := JNumber (Fin 0);
     Draft.accelerationZ := JNumber (Fin 0) |}.

Definition zero_roll : Draft.telemetry :=
  {| Draft.b := JNumber (Fin 0); Draft.g := JNumber (Fin 0);
     Draft.accelerationZ := JNumber (Fin 0) |}.

(** Every pending reactivation targets a box. *)
Definition boxes_only (s : state) : Prop :=
  forall t i, In t (timers s) -> act t = Reactivate i ->
  exists o pts, nth_error (obstacles s) i = Some o /\ otype o = box pts.

(** The event is the callback that reactivates obstacle [i]. *)
Definition reactivates (i : nat) (e : event) (s : state) : Prop :=
  exists k t, e = Fire k /\ nth_error (timers s) k = Some t /\
              act t = Reactivate i.

(** A solo run that reaches the bonus of the course. *)
Definition bonus_trace : list event :=
  Connect None
  :: JoinGame "P1" (Some {| room := "game"; jmode := solo |})
  :: repeat (Sensor "P1" (Some calm) 0) 160.

(** The bonus of the course once it has been taken. *)
Definition taken_bonus : obstacle :=
  {| otype := bonus "speed_x2"; ox := Fin 0; oy := Fin 0; oz := Fin (-500);
     size := Fin 20; collided := true |}.

Definition after_bonus : state :=
  match run bonus_trace init with
  | Ok s => s
  | Throw => init
  end.

Definition status_rank (st : status) : Z :=
  match st with
  | lobby => 0
  | playing => 1
  | finished => 2
  end.

(** The statement that no event ever moves a status backward. *)
Definition status_only_forward : Prop :=
  forall s e s' clientId p p',
    reachable s -> step e s = Ok s' ->
    Store.lookup clientId (players s) = Some p ->
    Store.lookup clientId (players s') = Some p' ->
    status_rank (pstatus p) <= status_rank (pstatus p').

(** The event is a [join_game] or a [disconnect] of [clientId]. *)
Definition addressed (clientId : string) (e : event) : bool :=
  match e with
  | JoinGame c _ | Disconnect c => String.eqb c clientId
  | _ => false
  end.

(** A whole race of one player, who shakes the phone all the way. *)
Definition race_trace : list event :=
  Connect None
  :: JoinGame "P1" (Some {| room := "game"; jmode := multi |})
  :: repeat (Sensor "P1" (Some shake) 777) 380.

Definition after_race : state :=
  match run race_trace init with
  | Ok s => s
  | Throw => init
  end.

(** The three players of the ranking example. *)
Definition playerA : player :=
  set_finishTime (set_status (racer "A" 0) finished) (Some 100).
Definition playerB : player :=
  set_points (set_finishTime (set_status (racer "B" 1) finished) (Some 50)) 25.
Definition playerC : player :=
  set_lap (set_z (racer "C" 2) (Fin (-200))) 1.

Definition podium : state :=
  with_players init
    [("A"%string, playerA); ("B"%string, playerB); ("C"%string, playerC)].

(** What holds of every player of the store in every state the server
    reaches. *)
Definition sound (p : player) : Prop :=
  Num.within (Fin 0) GEKITOTSU_CHARGE_MAX (gekitotsuForce p) /\
  Num.within (Num.neg TRACK_WIDTH_X) TRACK_WIDTH_X (x p) /\
  Num.within (Num.neg COURSE_LENGTH_Z) (Fin 0) (z p) /\
  y p = Fin 0 /\ baseSpeed p = Fin 3 /\
  0 <= points p /\ 0 <= lap p <= MAX_LAP /\
  (pstatus p = finished <-> lap p = MAX_LAP) /\
  (pstatus p = finished <-> finishTime p <> None).

(** The obstacles are those of the course, up to their [collided] flag. *)
Definition course_layout (s : state) : Prop :=
  map (fun o => set_collided o false) (obstacles s) = obstacles0.

Definition all_sound (s : state) : Prop :=
  course_layout s /\ forall k p, In (k, p) (players s) -> sound p.

(** The timer reactivates obstacle [i]. *)
Definition reactivates_index (i : nat) (t : timer) : bool :=
  match act t with
  | Reactivate j => (j =? i)%nat
  | ExpireBoost _ => false
  end.

(** Number of pending reactivations of obstacle [i]. *)
Definition reactivations (i : nat) (ts : list timer) : nat :=
  List.length (filter (reactivates_index i) ts).

(** The number of reactivations an obstacle is waiting for. *)
Definition awaited (o : obstacle) : nat :=
  match otype o with
  | box _ => if collided o then 1%nat else 0%nat
  | bonus _ => 0%nat
  end.

Definition awaited_at (i : nat) (l : list obstacle) : nat :=
  match nth_error l i with
  | Some o => awaited o
  | None => 0%nat
  end.

(** As many reactivations are pending as the obstacle awaits. *)
Definition timers_match (s : state) : Prop :=
  forall i, reactivations i (timers s) = awaited_at i (obstacles s).

(** A solo run that steers to the first box and takes it. *)
Definition box_trace : list event :=
  Connect None
  :: JoinGame "P1" (Some {| room := "game"; jmode := solo |})
  :: Sensor "P1" (Some {| b := JNumber (Fin 1000); g := JUndefined;
                          accelerationZ := JUndefined |}) 0
  :: repeat (Sensor "P1" (Some calm) 0) 25.

Definition after_box : state :=
  match run box_trace init with
  | Ok s => s
  | Throw => init
  end.

(** Every boosted player of the store has an expiry pending. *)
Definition boosts_expire (s : state) : Prop :=
  forall k p, In (k, p) (players s) ->
  speed_x2_active (peffects p) = true ->
  exists t, In t (timers s) /\ act t = ExpireBoost (oid p).

(** The delay with which the source starts each kind of callback. *)
Definition delay_for (a : action) : Z :=
  match a with
  | Reactivate _ => 3000
  | ExpireBoost _ => 5000
  end.

(** The store is a map whose objects are distinct and were numbered
    before [nextOid]. *)
Definition well_formed (s : state) : Prop :=
  NoDup (map fst (players s)) /\
  NoDup (map (fun e => oid (snd e)) (players s)) /\
  forall k p, In (k, p) (players s) -> id p = k /\ (oid p < nextOid s)%nat.

(** No player of the store is the object [o], and [o] is taken. *)
Definition departed (o : nat) (s : state) : Prop :=
  (o < nextOid s)%nat /\ forall k q, In (k, q) (players s) -> oid q <> o.

(** The finish time as the comparator reads it. *)
Definition timeOf (p : player) : Z :=
  match finishTime p with
  | Some t => t
  | None => 0
  end.

(** [a] is ranked at least as well as [b]: finished before unfinished,
    earlier finish first, then more laps, then smaller [z]. *)
Definition ahead (a b : player) : Prop :=
  match is_finished (pstatus a), is_finished (pstatus b) with
  | true, false => True
  | false, true => False
  | true, true => timeOf a <= timeOf b
  | false, false =>
      lap b < lap a \/ (lap a = lap b /\ Num.leb (z a) (z b) = true)
  end.

Definition finite (a : num) : Prop := exists q, a = Fin q.

(** A player without its rank fields. *)
Definition unranked (p : player) : player :=
  {| id := id p; oid := oid p; x := x p; y := y p; z := z p; speed := speed p;
     baseSpeed := baseSpeed p; gekitotsuForce := gekitotsuForce p;
     points := points p; lap := lap p; pstatus := pstatus p; pmode := pmode p;
     peffects := peffects p; finishTime := finishTime p;
     finalRank := None; totalPoints := 0 |}.

(** The test of [filter] in [calculateRanking]. *)
Definition ranked_player (p : player) : bool :=
  is_multi (pmode p) && negb (is_lobby (pstatus p)).

(** The entry [e] with the rank fields that [ranked] gives to its key. *)
Definition rerank (ranked : list (string * player)) (e : string * player)
  : string * player :=
  match Store.lookup (fst e) ranked with
  | Some v =>
      (fst e,
       set_ranking (snd e)
         (match finalRank v with Some r => r | None => 0 end) (totalPoints v))
  | None => e
  end.

(** What an obstacle can give: the points of a box, 20 for the bonus. *)
Definition award (o : obstacle) : Z :=
  match otype o with
  | box pts => pts
  | bonus eff => if String.eqb eff "speed_x2" then 20 else 0
  end.



(** * Properties *)

#[local] Arguments Qred : simpl never.
#[local] Arguments Qplus : simpl never.
#[local] Arguments Qmult : simpl never.
#[local] Arguments Qopp : simpl never.
#[local] Arguments Qabs : simpl never.
#[local] Arguments Qle_bool : simpl never.
#[local] Arguments Qeq_bool : simpl never.
#[local] Arguments Num.Qltb : simpl never.

(** ** Conversions and the order of keys *)

Example parseFloat_samples :
  parseFloat (JString "  -12.5e1px") = Fin (-125 # 1)%Q /\
  parseFloat (JString ".5") = Fin (1 # 2)%Q /\
  parseFloat (JString "abc") = NaN /\
  parseFloat (JString "-Infinity") = NInf /\
  parseFloat (JString "1e") = Fin 1 /\
  toNumber (JString " 0x1F ") = Fin 31 /\
  toNumber (JString "12px") = NaN /\
  toNumber (JString "") = Fin 0.
Proof. repeat split; reflexivity. Qed.

Example store_order :
  map fst (Store.set "2" tt (Store.set "P1" tt (Store.set "10" tt [])))
  = ["2"; "10"; "P1"]%string.
Proof. reflexivity. Qed.

(** ** The store *)

Section StoreFacts.
Context {V : Type}.
Implicit Types (m : Store.t V) (k : string) (v : V).

Lemma lookup_replace m k k' v :
  Store.lookup k' (Store.replace k v m)
  = if String.eqb k k' then
      match Store.lookup k m with Some _ => Some v | None => None end
    else Store.lookup k' m.
Proof.
  induction m as [|[k0 v0] r IH]; simpl.
  - now destruct (String.eqb k k').
  - destruct (String.eqb k0 k) eqn:E0; simpl.
    + apply String.eqb_eq in E0; subst k0.
      destruct (String.eqb k k'); reflexivity.
    + destruct (String.eqb k0 k') eqn:E1.
      * apply String.eqb_eq in E1; subst k0.
        rewrite String.eqb_sym, E0. reflexivity.
      * exact IH.
Qed.

Lemma lookup_insert_new_other m k k' v :
  k <> k' -> Store.lookup k' (Store.insert_new k v m) = Store.lookup k' m.
Proof.
  intros Hne. apply String.eqb_neq in Hne.
  induction m as [|[k0 v0] r IH]; simpl.
  - now rewrite Hne.
  - destruct (Store.array_index k), (Store.array_index k0);
      try destruct (_ <? _); simpl; rewrite ?Hne, ?IH; reflexivity.
Qed.

Lemma lookup_insert_new_same m k v :
  Store.lookup k m = None -> Store.lookup k (Store.insert_new k v m) = Some v.
Proof.
  induction m as [|[k0 v0] r IH]; simpl; intros H.
  - now rewrite String.eqb_refl.
  - destruct (String.eqb k0 k) eqn:E0; [discriminate|].
    destruct (Store.array_index k), (Store.array_index k0);
      try destruct (_ <? _); simpl; rewrite ?String.eqb_refl, ?E0; auto.
Qed.

Lemma lookup_set m k k' v :
  Store.lookup k' (Store.set k v m)
  = if String.eqb k k' then Some v else Store.lookup k' m.
Proof.
  unfold Store.set. destruct (Store.lookup k m) eqn:E.
  - rewrite lookup_replace, E. reflexivity.
  - destruct (String.eqb k k') eqn:Ek.
    + apply String.eqb_eq in Ek; subst k'. now apply lookup_insert_new_same.
    + apply String.eqb_neq in Ek. now apply lookup_insert_new_other.
Qed.

Lemma lookup_delete m k k' :
  Store.lookup k' (Store.delete k m)
  = if String.eqb k k' then None else Store.lookup k' m.
Proof.
  induction m as [|[k0 v0] r IH]; simpl.
  - now destruct (String.eqb k k').
  - destruct (String.eqb k0 k) eqn:E0; simpl.
    + apply String.eqb_eq in E0; subst k0. rewrite IH.
      destruct (String.eqb k k'); reflexivity.
    + rewrite IH. destruct (String.eqb k0 k') eqn:E1; [|reflexivity].
      apply String.eqb_eq in E1; subst k0. now rewrite String.eqb_sym, E0.
Qed.

End StoreFacts.

(** ** Numbers *)

Lemma Qltb_lt p q : Num.Qltb p q = true <-> (p < q)%Q.
Proof.
  unfold Num.Qltb. rewrite negb_true_iff. split; intros H.
  - apply Qnot_le_lt. intros Hle. apply Qle_bool_iff in Hle. congruence.
  - destruct (Qle_bool q p) eqn:E; [|reflexivity].
    apply Qle_bool_iff in E. exfalso. now apply (Qlt_not_le p q).
Qed.

Lemma Qltb_ge p q : Num.Qltb p q = false <-> (q <= p)%Q.
Proof.
  unfold Num.Qltb. rewrite negb_false_iff. apply Qle_bool_iff.
Qed.

Lemma within_fin lo hi a :
  Num.within (Fin lo) (Fin hi) a <->
  exists q, a = Fin q /\ (lo <= q /\ q <= hi)%Q.
Proof.
  unfold Num.within. split.
  - intros [H1 H2]. destruct a; simpl in *; try discriminate.
    exists q. rewrite <- !Qle_bool_iff. auto.
  - intros (q & -> & H1 & H2). simpl. rewrite !Qle_bool_iff. auto.
Qed.

Lemma within_charge_zero :
  Num.within (Fin 0) GEKITOTSU_CHARGE_MAX (Fin 0).
Proof. split; reflexivity. Qed.

Lemma within_chargeUp a :
  Num.within (Fin 0) GEKITOTSU_CHARGE_MAX a ->
  Num.within (Fin 0) GEKITOTSU_CHARGE_MAX
    (Num.min (Num.add a (Fin 2)) GEKITOTSU_CHARGE_MAX).
Proof.
  unfold GEKITOTSU_CHARGE_MAX. intros H.
  apply within_fin in H. destruct H as (q & -> & H0 & H1).
  apply within_fin. simpl.
  destruct (Num.Qltb 10 (Qred (q + 2))) eqn:E.
  - exists 10%Q. repeat split; try reflexivity; lra.
  - apply Qltb_ge in E. pose proof (Qred_correct (q + 2)) as Hr.
    exists (Qred (q + 2)). repeat split; try reflexivity; lra.
Qed.

Lemma within_clamp a :
  a <> NaN ->
  Num.within (Num.neg TRACK_WIDTH_X) TRACK_WIDTH_X
    (Num.max (Num.neg TRACK_WIDTH_X) (Num.min TRACK_WIDTH_X a)).
Proof.
  intros Ha. change (Num.neg TRACK_WIDTH_X) with (Fin (-250)).
  unfold TRACK_WIDTH_X. apply within_fin.
  destruct a as [| |q|]; [congruence| | |]; simpl.
  - exists (-250)%Q. repeat split; try reflexivity; lra.
  - destruct (Num.Qltb q 250) eqn:E; simpl.
    + destruct (Num.Qltb (-250) q) eqn:E2.
      * apply Qltb_lt in E, E2. exists q. repeat split; try reflexivity; lra.
      * exists (-250)%Q. repeat split; try reflexivity; lra.
    + exists 250%Q. repeat split; try reflexivity; lra.
  - exists 250%Q. repeat split; try reflexivity; lra.
Qed.

Lemma orZero_not_nan a : Num.orZero a <> NaN.
Proof. destruct a; unfold Num.orZero; simpl; try congruence.
  destruct (Qeq_bool q 0); simpl; congruence. Qed.

Lemma mul_fin_not_nan a q :
  a <> NaN -> Qeq_bool q 0 = false -> Num.mul a (Fin q) <> NaN.
Proof.
  intros Ha Hq. destruct a; simpl; try congruence;
    rewrite Hq; simpl; destruct (Num.Qltb q 0); congruence.
Qed.

Lemma add_fin_not_nan q a : a <> NaN -> Num.add (Fin q) a <> NaN.
Proof. destruct a; simpl; congruence. Qed.

(** ** The passes of updateGameLogic *)

Lemma same_course_refl p : same_course p p.
Proof. unfold same_course. intuition reflexivity. Qed.

Lemma same_course_trans p q r :
  same_course p q -> same_course q r -> same_course p r.
Proof. unfold same_course. intuition congruence. Qed.

Lemma hit_same_course p i o :
  same_course p (fst (fst (hit p i o))).
Proof.
  unfold hit. destruct (checkCollision p o); [|apply same_course_refl].
  destruct (collided o); [apply same_course_refl|].
  destruct (otype o) as [pts|eff]; [|destruct (String.eqb eff "speed_x2")];
    unfold same_course; simpl; intuition reflexivity.
Qed.

Lemma obstaclePass_same_course l : forall p i,
  same_course p (fst (fst (obstaclePass p i l))).
Proof.
  induction l as [|o r IH]; intros p i; simpl.
  - apply same_course_refl.
  - pose proof (hit_same_course p i o) as H.
    destruct (hit p i o) as [[p1 o1] t1]. simpl in H.
    specialize (IH p1 (S i)).
    destruct (obstaclePass p1 (S i) r) as [[p2 r2] t2]. simpl in *.
    eapply same_course_trans; eauto.
Qed.

Lemma hit_charge p i o :
  Num.within (Fin 0) GEKITOTSU_CHARGE_MAX (gekitotsuForce p) ->
  Num.within (Fin 0) GEKITOTSU_CHARGE_MAX (gekitotsuForce (fst (fst (hit p i o)))).
Proof.
  intros H. unfold hit. destruct (checkCollision p o); [|exact H].
  destruct (collided o); [exact H|].
  destruct (otype o) as [pts|eff]; [|destruct (String.eqb eff "speed_x2")];
    simpl; apply within_charge_zero.
Qed.

Lemma obstaclePass_charge l : forall p i,
  Num.within (Fin 0) GEKITOTSU_CHARGE_MAX (gekitotsuForce p) ->
  Num.within (Fin 0) GEKITOTSU_CHARGE_MAX
    (gekitotsuForce (fst (fst (obstaclePass p i l)))).
Proof.
  induction l as [|o r IH]; intros p i H; simpl; [exact H|].
  pose proof (hit_charge p i o H) as H1.
  destruct (hit p i o) as [[p1 o1] t1]. simpl in H1.
  specialize (IH p1 (S i) H1).
  destruct (obstaclePass p1 (S i) r) as [[p2 r2] t2]. exact IH.
Qed.

(** What the loop over the store keeps of the updating player. *)
Lemma clash_player clientId l : forall p,
  let p' := fst (clash clientId p l) in
  same_course p p' /\ points p' = points p /\ peffects p' = peffects p /\
  (Num.within (Fin 0) GEKITOTSU_CHARGE_MAX (gekitotsuForce p) ->
   Num.within (Fin 0) GEKITOTSU_CHARGE_MAX (gekitotsuForce p')).
Proof.
  induction l as [|[k q] r IH]; intros p; simpl.
  - split; [apply same_course_refl | auto].
  - destruct (clashes clientId p k q).
    + set (p2 := set_speed (chargeUp p) _).
      specialize (IH p2). destruct (clash clientId p2 r) as [p3 r'].
      simpl in *. destruct IH as (Hc & Hp & He & Hw).
      split; [|split; [|split]].
      * unfold same_course in *; simpl in *; intuition congruence.
      * exact Hp.
      * exact He.
      * intros H. apply Hw. simpl. now apply within_chargeUp.
    + specialize (IH p). destruct (clash clientId p r) as [p3 r'].
      simpl in *. exact IH.
Qed.

(** What the loop does to the entries of the store. *)
Lemma clash_store clientId l : forall p k,
  Store.lookup k (snd (clash clientId p l))
  = match Store.lookup k l with
    | Some q => Some (if clashes clientId p k q then chargeUp q else q)
    | None => None
    end.
Proof.
  induction l as [|[k0 q0] r IH]; intros p k; simpl; [reflexivity|].
  destruct (clashes clientId p k0 q0) eqn:Ec.
  - set (p2 := set_speed (chargeUp p) _).
    specialize (IH p2 k). destruct (clash clientId p2 r) as [p3 r'].
    simpl in *. destruct (String.eqb k0 k) eqn:Ek.
    + apply String.eqb_eq in Ek; subst k0. now rewrite Ec.
    + rewrite IH. destruct (Store.lookup k r); [|reflexivity].
      reflexivity.
  - specialize (IH p k). destruct (clash clientId p r) as [p3 r'].
    simpl in *. destruct (String.eqb k0 k) eqn:Ek.
    + apply String.eqb_eq in Ek; subst k0. now rewrite Ec.
    + exact IH.
Qed.

Lemma playerPass_player clientId l p :
  let p' := fst (playerPass clientId p l) in
  same_course p p' /\ points p' = points p /\ peffects p' = peffects p /\
  (Num.within (Fin 0) GEKITOTSU_CHARGE_MAX (gekitotsuForce p) ->
   Num.within (Fin 0) GEKITOTSU_CHARGE_MAX (gekitotsuForce p')).
Proof.
  unfold playerPass. destruct (is_multi (pmode p)).
  - apply clash_player.
  - simpl. split; [apply same_course_refl | auto].
Qed.

Lemma playerPass_store clientId l p k :
  Store.lookup k (snd (playerPass clientId p l))
  = match Store.lookup k l with
    | Some q =>
        Some (if is_multi (pmode p) && clashes clientId p k q
              then chargeUp q else q)
    | None => None
    end.
Proof.
  unfold playerPass. destruct (is_multi (pmode p)); simpl.
  - apply clash_store.
  - destruct (Store.lookup k l); reflexivity.
Qed.

Lemma integrate_fields d p :
  let q := integrate d p in
  id q = id p /\ oid q = oid p /\ y q = y p /\ lap q = lap p /\
  pstatus q = pstatus p /\ pmode q = pmode p /\ peffects q = peffects p /\
  points q = points p /\ finishTime q = finishTime p /\
  finalRank q = finalRank p /\ totalPoints q = totalPoints p /\
  gekitotsuForce q = gekitotsuForce (charge d p) /\ x q = x (steer d p).
Proof.
  unfold integrate, advance, steer, charge.
  destruct (Num.gtb _ _); simpl;
    destruct (speed_x2_active (peffects p)); simpl; intuition reflexivity.
Qed.

(** The update of a playing player, pass by pass. *)
Lemma updateGameLogic_playing clientId d now s p :
  Store.lookup clientId (players s) = Some p ->
  pstatus p = playing ->
  updateGameLogic clientId (Some d) now s
  = Ok {| players :=
            Store.set clientId (updatedPlayer clientId d now p s)
              (snd (playerPass clientId (afterObstacles d p s) (players s)));
          nextPlayerId := nextPlayerId s;
          obstacles := snd (fst (obstaclePass (integrate d p) 0 (obstacles s)));
          timers := timers s ++ snd (obstaclePass (integrate d p) 0 (obstacles s));
          nextOid := nextOid s |}.
Proof.
  intros Hl Hs. unfold updateGameLogic, updatedPlayer, afterPlayers, afterObstacles.
  rewrite Hl, Hs. simpl.
  destruct (obstaclePass (integrate d p) 0 (obstacles s)) as [[p2 obs] ts].
  simpl. destruct (playerPass clientId p2 (players s)) as [p3 others].
  reflexivity.
Qed.

Lemma updateGameLogic_idle clientId data now s :
  match Store.lookup clientId (players s) with
  | Some p => pstatus p <> playing
  | None => True
  end ->
  updateGameLogic clientId data now s = Ok s.
Proof.
  unfold updateGameLogic. destruct (Store.lookup clientId (players s)) as [p|];
    [|reflexivity].
  intros H. destruct (pstatus p); try reflexivity. congruence.
Qed.

(** Every update with a payload returns, and the updated player is
    either untouched or [updatedPlayer]. *)
Lemma updateGameLogic_self clientId d now s p :
  Store.lookup clientId (players s) = Some p ->
  exists s',
    updateGameLogic clientId (Some d) now s = Ok s' /\
    Store.lookup clientId (players s')
    = Some (if is_playing (pstatus p) then updatedPlayer clientId d now p s
            else p).
Proof.
  intros Hl. destruct (is_playing (pstatus p)) eqn:Hp.
  - assert (Hs : pstatus p = playing) by (destruct (pstatus p); simpl in Hp; congruence).
    rewrite (updateGameLogic_playing clientId d now s p Hl Hs).
    eexists. split; [reflexivity|]. simpl.
    rewrite lookup_set, String.eqb_refl. reflexivity.
  - exists s. split; [|exact Hl].
    apply updateGameLogic_idle. rewrite Hl.
    intros E. rewrite E in Hp. discriminate.
Qed.

Lemma lapCheck_fields now p :
  let q := lapCheck now p in
  id q = id p /\ oid q = oid p /\ x q = x p /\ y q = y p /\
  speed q = speed p /\ baseSpeed q = baseSpeed p /\
  gekitotsuForce q = gekitotsuForce p /\ points q = points p /\
  pmode q = pmode p /\ peffects q = peffects p /\
  finalRank q = finalRank p /\ totalPoints q = totalPoints p.
Proof.
  unfold lapCheck. destruct (Num.ltb _ _); simpl; [|intuition reflexivity].
  destruct (MAX_LAP <=? lap p + 1); simpl; intuition reflexivity.
Qed.

Lemma lapCheck_course now p :
  let q := lapCheck now p in
  if Num.ltb (z p) (Num.neg COURSE_LENGTH_Z) then
    lap q = lap p + 1 /\ z q = Num.add (z p) COURSE_LENGTH_Z
  else q = p.
Proof.
  unfold lapCheck. destruct (Num.ltb _ _); simpl; [|reflexivity].
  destruct (MAX_LAP <=? lap p + 1); simpl; auto.
Qed.

(** The course fields of the updated player come from [integrate]. *)
Lemma afterPlayers_course clientId d p s :
  same_course (integrate d p) (afterPlayers clientId d p s).
Proof.
  unfold afterPlayers, afterObstacles.
  eapply same_course_trans; [apply obstaclePass_same_course|].
  apply playerPass_player.
Qed.

Lemma integrate_bounds d p :
  Num.within (Fin 0) GEKITOTSU_CHARGE_MAX (gekitotsuForce p) ->
  Num.within (Num.neg TRACK_WIDTH_X) TRACK_WIDTH_X (x p) ->
  Num.within (Fin 0) GEKITOTSU_CHARGE_MAX (gekitotsuForce (integrate d p)) /\
  Num.within (Num.neg TRACK_WIDTH_X) TRACK_WIDTH_X (x (integrate d p)).
Proof.
  intros Hc Hx.
  destruct (integrate_fields d p) as (_&_&_&_&_&_&_&_&_&_&_&Hg&Hxq).
  rewrite Hg, Hxq. split.
  - unfold charge. destruct (Num.gtb _ _); simpl; [|exact Hc].
    now apply within_chargeUp.
  - unfold steer. simpl. apply within_clamp.
    change (Num.neg TRACK_WIDTH_X) with (Fin (-250)) in Hx.
    apply within_fin in Hx. destruct Hx as (q & Hq & _).
    rewrite Hq;
      apply add_fin_not_nan, mul_fin_not_nan; try reflexivity;
      apply mul_fin_not_nan; try reflexivity; apply orZero_not_nan.
Qed.

Example two_racers_run :
  run [Connect None; Connect None;
       JoinGame "P1" (Some {| room := "game"; jmode := multi |});
       JoinGame "P2" (Some {| room := "game"; jmode := multi |})] init
  = Ok two_racers.
Proof. reflexivity. Qed.

(** C3: a sensor update of a player whose charge lies in
    [[0, GEKITOTSU_CHARGE_MAX]] and whose [x] lies in
    [[-TRACK_WIDTH_X, TRACK_WIDTH_X]] returns, whatever the telemetry
    fields are, and leaves both within these bounds. *)
Theorem sensor_update_keeps_bounds clientId d now s p :
  Store.lookup clientId (players s) = Some p ->
  Num.within (Fin 0) GEKITOTSU_CHARGE_MAX (gekitotsuForce p) ->
  Num.within (Num.neg TRACK_WIDTH_X) TRACK_WIDTH_X (x p) ->
  exists s' p',
    updateGameLogic clientId (Some d) now s = Ok s' /\
    Store.lookup clientId (players s') = Some p' /\
    Num.within (Fin 0) GEKITOTSU_CHARGE_MAX (gekitotsuForce p') /\
    Num.within (Num.neg TRACK_WIDTH_X) TRACK_WIDTH_X (x p').
Proof.
  intros Hl Hc Hx.
  destruct (updateGameLogic_self clientId d now s p Hl) as (s' & Hu & Hl').
  exists s'. eexists. split; [exact Hu|]. split; [exact Hl'|].
  destruct (is_playing (pstatus p)); [|auto].
  unfold updatedPlayer.
  destruct (lapCheck_fields now (afterPlayers clientId d p s))
    as (_&_&Hx'&_&_&_&Hg'&_).
  rewrite Hx', Hg'.
  destruct (integrate_bounds d p Hc Hx) as [Hc1 Hx1].
  unfold afterPlayers.
  destruct (playerPass_player clientId (players s) (afterObstacles d p s))
    as (Hs & _ & _ & Hw).
  pose proof (obstaclePass_same_course (obstacles s) (integrate d p) 0) as Ho.
  fold (afterObstacles d p s) in Ho.
  split.
  - apply Hw. unfold afterObstacles. now apply obstaclePass_charge.
  - replace (x (fst (playerPass clientId (afterObstacles d p s) (players s))))
      with (x (integrate d p)); [exact Hx1|].
    unfold same_course in *. intuition congruence.
Qed.

Lemma sensor_update_keeps_bounds_witness :
  Store.lookup "P1" (players two_racers) = Some (racer "P1" 0) /\
  Num.within (Fin 0) GEKITOTSU_CHARGE_MAX (gekitotsuForce (racer "P1" 0)) /\
  Num.within (Num.neg TRACK_WIDTH_X) TRACK_WIDTH_X (x (racer "P1" 0)) /\
  exists s' p',
    updateGameLogic "P1" (Some shake) 0 two_racers = Ok s' /\
    Store.lookup "P1" (players s') = Some p' /\
    Num.within (Fin 0) GEKITOTSU_CHARGE_MAX (gekitotsuForce p') /\
    Num.within (Num.neg TRACK_WIDTH_X) TRACK_WIDTH_X (x p').
Proof.
  assert (H1 : Store.lookup "P1" (players two_racers) = Some (racer "P1" 0))
    by reflexivity.
  assert (H2 : Num.within (Fin 0) GEKITOTSU_CHARGE_MAX
                 (gekitotsuForce (racer "P1" 0)))
    by (split; reflexivity).
  assert (H3 : Num.within (Num.neg TRACK_WIDTH_X) TRACK_WIDTH_X
                 (x (racer "P1" 0)))
    by (split; reflexivity).
  exact (conj H1 (conj H2 (conj H3
           (sensor_update_keeps_bounds "P1" shake 0 two_racers _ H1 H2 H3)))).
Defined.

Lemma lapCheck_z now p :
  z (lapCheck now p)
  = if Num.ltb (z p) (Num.neg COURSE_LENGTH_Z)
    then Num.add (z p) COURSE_LENGTH_Z else z p.
Proof.
  pose proof (lapCheck_course now p) as H. cbv zeta in H.
  destruct (Num.ltb (z p) (Num.neg COURSE_LENGTH_Z)).
  - apply H.
  - now rewrite H.
Qed.


(** C4: for a playing player the update sets [baseSpeed] to 3 and
    computes [speed] as [baseSpeed * 2] while the double-speed effect is
    active, without any charge term, and as
    [baseSpeed + gekitotsuForce * 0.2] otherwise, the charge being the one
    just updated from the acceleration; it then subtracts that speed from
    [z], and the update ends with this [z], wrapped by the lap check. *)
Theorem sensor_update_speed clientId d now s p :
  Store.lookup clientId (players s) = Some p ->
  pstatus p = playing ->
  let q := integrate d p in
  baseSpeed q = Fin 3 /\
  gekitotsuForce q = gekitotsuForce (charge d p) /\
  speed q
  = (if speed_x2_active (peffects p) then Num.mul (baseSpeed q) (Fin 2)
     else Num.add (baseSpeed q) (Num.mul (gekitotsuForce q) (Fin (2 # 10)))) /\
  z q = Num.sub (z p) (speed q) /\
  exists s' p',
    updateGameLogic clientId (Some d) now s = Ok s' /\
    Store.lookup clientId (players s') = Some p' /\
    baseSpeed p' = Fin 3 /\
    z p' = (if Num.ltb (z q) (Num.neg COURSE_LENGTH_Z)
            then Num.add (z q) COURSE_LENGTH_Z else z q).
Proof.
  intros Hl Hs q.
  assert (Hq : baseSpeed q = Fin 3 /\
               gekitotsuForce q = gekitotsuForce (charge d p) /\
               speed q
               = (if speed_x2_active (peffects p)
                  then Num.mul (baseSpeed q) (Fin 2)
                  else Num.add (baseSpeed q)
                         (Num.mul (gekitotsuForce q) (Fin (2 # 10)))) /\
               z q = Num.sub (z p) (speed q)).
  { subst q. unfold integrate, advance, steer, charge.
    destruct (Num.gtb _ _); simpl;
      destruct (speed_x2_active (peffects p)); simpl; auto. }
  destruct Hq as (H1 & H2 & H3 & H4). repeat (split; [assumption|]).
  destruct (updateGameLogic_self clientId d now s p Hl) as (s' & Hu & Hl').
  rewrite Hs in Hl'. simpl in Hl'.
  exists s', (updatedPlayer clientId d now p s).
  split; [exact Hu|]. split; [exact Hl'|].
  pose proof (afterPlayers_course clientId d p s) as Hc.
  fold q in Hc. unfold updatedPlayer. rewrite lapCheck_z.
  destruct (lapCheck_fields now (afterPlayers clientId d p s))
    as (_&_&_&_&_&Hb&_).
  rewrite Hb. unfold same_course in Hc.
  destruct Hc as (_&_&_&_&Hz&Hbs&_). rewrite <- Hz, <- Hbs. auto.
Qed.

Lemma sensor_update_speed_witness :
  Store.lookup "P1" (players two_racers) = Some (racer "P1" 0) /\
  pstatus (racer "P1" 0) = playing /\
  speed (integrate shake (racer "P1" 0)) = Fin (17 # 5) /\
  z (integrate shake (racer "P1" 0)) = Fin (- 17 # 5).
Proof.
  assert (H1 : Store.lookup "P1" (players two_racers) = Some (racer "P1" 0))
    by reflexivity.
  assert (H2 : pstatus (racer "P1" 0) = playing) by reflexivity.
  split; [exact H1|]. split; [exact H2|].
  destruct (sensor_update_speed "P1" shake 0 two_racers _ H1 H2)
    as (_ & _ & H3 & H4 & _).
  split.
  - rewrite H3. reflexivity.
  - rewrite H4. reflexivity.
Defined.





Lemma set_gekitotsuForce_same p : set_gekitotsuForce p (gekitotsuForce p) = p.
Proof. now destruct p. Qed.

(** What an update does to the entry of another player: nothing, or
    one more charge when both players race in multiplayer mode. *)
Lemma updateGameLogic_others clientId data now s s' other q :
  updateGameLogic clientId data now s = Ok s' ->
  other <> clientId ->
  Store.lookup other (players s) = Some q ->
  Store.lookup other (players s') = Some q \/
  (Store.lookup other (players s') = Some (chargeUp q) /\
   (exists p, Store.lookup clientId (players s) = Some p /\ pmode p = multi) /\
   pmode q = multi /\ pstatus q = playing).
Proof.
  intros Hu Hne Hq.
  destruct (Store.lookup clientId (players s)) as [p|] eqn:Hl.
  2:{ rewrite updateGameLogic_idle in Hu by now rewrite Hl.
      inversion Hu; subst s'. now left. }
  destruct (pstatus p) eqn:Hs.
  1,3: rewrite updateGameLogic_idle in Hu by (rewrite Hl, Hs; discriminate);
       inversion Hu; subst s'; now left.
  destruct data as [d|].
  2:{ unfold updateGameLogic in Hu. rewrite Hl, Hs in Hu. discriminate. }
  rewrite (updateGameLogic_playing clientId d now s p Hl Hs) in Hu.
  inversion Hu; subst s'; clear Hu. simpl.
  assert (Hk : String.eqb clientId other = false).
  { apply String.eqb_neq. congruence. }
  rewrite lookup_set, Hk, playerPass_store, Hq.
  destruct (is_multi (pmode (afterObstacles d p s))) eqn:Hm; simpl;
    [|now left].
  destruct (clashes clientId (afterObstacles d p s) other q) eqn:Hc;
    [|now left].
  right. split; [reflexivity|].
  pose proof (obstaclePass_same_course (obstacles s) (integrate d p) 0) as Ho.
  fold (afterObstacles d p s) in Ho.
  destruct (integrate_fields d p) as (_&_&_&_&_&Hm1&_).
  unfold same_course in Ho. destruct Ho as (_&_&_&_&_&_&_&_&Hm2&_).
  unfold clashes in Hc. rewrite !andb_true_iff in Hc.
  destruct Hc as [[[_ Hqm] Hqs] _].
  split; [exists p; split; [reflexivity|] |split].
  - rewrite <- Hm1, Hm2. now destruct (pmode (afterObstacles d p s)).
  - now destruct (pmode q).
  - now destruct (pstatus q).
Qed.

(** C10: a sensor update of player [clientId] keeps every other player
    in the store and changes nothing of it but [gekitotsuForce]; that
    field changes only if the updating player has mode [multi] and the
    other player has mode [multi] and status [playing]. *)
Theorem sensor_update_frame clientId data now s s' other q :
  updateGameLogic clientId data now s = Ok s' ->
  other <> clientId ->
  Store.lookup other (players s) = Some q ->
  exists q',
    Store.lookup other (players s') = Some q' /\
    q' = set_gekitotsuForce q (gekitotsuForce q') /\
    (gekitotsuForce q' <> gekitotsuForce q ->
     (exists p, Store.lookup clientId (players s) = Some p /\ pmode p = multi) /\
     pmode q = multi /\ pstatus q = playing).
Proof.
  intros Hu Hne Hq.
  destruct (updateGameLogic_others clientId data now s s' other q Hu Hne Hq)
    as [Hl | (Hl & Hmode)].
  - exists q. split; [exact Hl|].
    split; [now rewrite set_gekitotsuForce_same|].
    intros H. now contradiction H.
  - exists (chargeUp q). split; [exact Hl|].
    split; [reflexivity|]. intros _. exact Hmode.
Qed.

(** ** join_game *)

(** What [join_game] does to a player of the store: the fields of lines
    220-226 are set, everything else, [x] included, is kept. *)
Lemma join_game_resets clientId d s p :
  Store.lookup clientId (players s) = Some p ->
  exists s' p',
    join_game clientId (Some d) s = Ok s' /\
    Store.lookup clientId (players s') = Some p' /\
    pstatus p' = playing /\ pmode p' = jmode d /\ z p' = Fin 0 /\
    lap p' = 0 /\ points p' = 0 /\ gekitotsuForce p' = Fin 0 /\
    finishTime p' = None /\
    x p' = x p /\ y p' = y p /\ speed p' = speed p /\
    peffects p' = peffects p.
Proof.
  intros Hl. unfold join_game. rewrite Hl.
  eexists. eexists. split; [reflexivity|]. simpl.
  rewrite lookup_set, String.eqb_refl. split; [reflexivity|].
  simpl. repeat split; reflexivity.
Qed.

(** C2: after steering to [x = 100], a second [join_game] sets [z],
    [lap], [points], [gekitotsuForce], [finishTime] and the status, and
    leaves [x] at 100, while the initial [x] is 0. *)
Theorem join_game_keeps_x :
  exists s p,
    run rejoin_trace init = Ok s /\
    Store.lookup "P1" (players s) = Some p /\
    pstatus p = playing /\ z p = Fin 0 /\ lap p = 0 /\ points p = 0 /\
    gekitotsuForce p = Fin 0 /\ finishTime p = None /\
    x p = Fin 100 /\ x (newPlayer "P1" 0) = Fin 0.
Proof.
  eexists. eexists. split; [vm_compute; reflexivity|].
  split; [vm_compute; reflexivity|].
  vm_compute. repeat split; reflexivity.
Qed.

(** ** Telemetry defaults *)

Lemma orZero_nan_default v :
  parseFloat v = NaN -> Num.orZero (parseFloat v) = Num.orZero (parseFloat (JNumber (Fin 0))).
Proof. intros ->. reflexivity. Qed.

(** In server.js a field from which [parseFloat] gets no number counts
    as 0, and [g] is never read. *)
Lemma updateGameLogic_defaults clientId now s vb vg va vg' :
  updateGameLogic clientId
    (Some {| b := vb; g := vg; accelerationZ := va |}) now s
  = updateGameLogic clientId
      (Some {| b := if Num.is_nan (parseFloat vb) then JNumber (Fin 0) else vb;
               g := vg';
               accelerationZ :=
                 if Num.is_nan (parseFloat va) then JNumber (Fin 0) else va |})
      now s.
Proof.
  assert (Hi : forall p,
    integrate {| b := vb; g := vg; accelerationZ := va |} p
    = integrate
        {| b := if Num.is_nan (parseFloat vb) then JNumber (Fin 0) else vb;
           g := vg';
           accelerationZ :=
             if Num.is_nan (parseFloat va) then JNumber (Fin 0) else va |} p).
  { intros p. unfold integrate, steer, charge. simpl.
    assert (Hb : Num.orZero (parseFloat vb)
                 = Num.orZero (parseFloat (if Num.is_nan (parseFloat vb)
                                           then JNumber (Fin 0) else vb))).
    { destruct (parseFloat vb) eqn:E; simpl; rewrite ?E; reflexivity. }
    assert (Ha : Num.orZero (parseFloat va)
                 = Num.orZero (parseFloat (if Num.is_nan (parseFloat va)
                                           then JNumber (Fin 0) else va))).
    { destruct (parseFloat va) eqn:E; simpl; rewrite ?E; reflexivity. }
    rewrite <- Hb, <- Ha. reflexivity. }
  unfold updateGameLogic.
  destruct (Store.lookup clientId (players s)) as [p|]; [|reflexivity].
  destruct (negb (is_playing (pstatus p))); [reflexivity|].
  rewrite <- Hi. reflexivity.
Qed.

(** C9: in the earlier variant a sample without the roll field turns
    [x] into NaN, while the same sample with roll 0 leaves [x] at 0. *)
Theorem draft_missing_roll_gives_nan :
  let s := Draft.connection None Draft.init in
  (exists s' p',
     Draft.sensor "P1" (Some no_roll) s = Ok s' /\
     Store.lookup "P1" (Draft.players s') = Some p' /\
     Draft.x p' = NaN) /\
  (exists s' p',
     Draft.sensor "P1" (Some zero_roll) s = Ok s' /\
     Store.lookup "P1" (Draft.players s') = Some p' /\
     Draft.x p' = Fin 0).
Proof.
  split; eexists; eexists; (split; [vm_compute; reflexivity|]);
    (split; [vm_compute; reflexivity|]); reflexivity.
Qed.

(** C8: in the earlier variant a client that connects as
    [constructor] gets no player, yet its sensor event without a payload
    throws: [players[clientId]] is the inherited function, so the guard
    for identifiers that are not in the store lets the update through.
    The same event from an identifier that names no inherited property
    is ignored. *)
Theorem sensor_on_inherited_identifier :
  let s := Draft.connection (Some "constructor"%string) Draft.init in
  Store.lookup "constructor" (Draft.players s) = None /\
  Draft.players s = [] /\
  Draft.sensor "constructor" None s = Throw /\
  Draft.sensor "P7" None s = Ok s.
Proof. vm_compute. repeat split; reflexivity. Qed.

(** ** Obstacles and timers *)

Lemma hit_collided p i o :
  collided o = true -> hit p i o = (p, o, []).
Proof. intros H. unfold hit. rewrite H. now destruct (checkCollision p o). Qed.

Lemma hit_obstacle p i o :
  let o' := snd (fst (hit p i o)) in
  otype o' = otype o /\ (collided o = true -> o' = o).
Proof.
  simpl. split.
  - unfold hit. destruct (checkCollision p o); [|reflexivity].
    destruct (collided o); [reflexivity|].
    destruct (otype o) as [pts|eff] eqn:E;
      [|destruct (String.eqb eff "speed_x2")]; simpl; auto.
  - intros H. now rewrite hit_collided.
Qed.

Lemma hit_timers p i o t :
  In t (snd (hit p i o)) ->
  (exists pts, act t = Reactivate i /\ otype o = box pts) \/
  (exists target, act t = ExpireBoost target).
Proof.
  unfold hit. destruct (checkCollision p o); [|intros []].
  destruct (collided o); [intros []|].
  destruct (otype o) as [pts|eff]; [|destruct (String.eqb eff "speed_x2")];
    simpl; intros H; try tauto; destruct H as [<-|[]]; simpl; eauto.
Qed.

Lemma obstaclePass_nth l : forall p i k,
  match nth_error l k with
  | Some o =>
      exists o', nth_error (snd (fst (obstaclePass p i l))) k = Some o' /\
                 otype o' = otype o /\ (collided o = true -> o' = o)
  | None => nth_error (snd (fst (obstaclePass p i l))) k = None
  end.
Proof.
  induction l as [|o r IH]; intros p i k; simpl.
  - now destruct k.
  - pose proof (hit_obstacle p i o) as Ho. simpl in Ho.
    destruct (hit p i o) as [[p1 o1] t1]. simpl in Ho.
    specialize (IH p1 (S i)).
    destruct (obstaclePass p1 (S i) r) as [[p2 r2] t2]. simpl in *.
    destruct k as [|k]; simpl.
    + exists o1. split; [reflexivity | exact Ho].
    + apply IH.
Qed.

Lemma obstaclePass_timers l : forall p i t,
  In t (snd (obstaclePass p i l)) ->
  (exists k o pts, act t = Reactivate (i + k) /\
                   nth_error l k = Some o /\ otype o = box pts) \/
  (exists target, act t = ExpireBoost target).
Proof.
  induction l as [|o r IH]; intros p i t; simpl; [intros []|].
  pose proof (hit_timers p i o t) as Ht.
  destruct (hit p i o) as [[p1 o1] t1]. simpl in Ht.
  specialize (IH p1 (S i) t).
  destruct (obstaclePass p1 (S i) r) as [[p2 r2] t2]. simpl in *.
  intros H. apply in_app_or in H. destruct H as [H|H].
  - destruct (Ht H) as [(pts & Ha & Hb)|Hx]; [left|right; exact Hx].
    exists 0%nat, o, pts. rewrite Nat.add_0_r. auto.
  - destruct (IH H) as [(k & o' & pts & Ha & Hb & Hc)|Hx]; [left|right; exact Hx].
    exists (S k), o', pts. rewrite Nat.add_succ_r. auto.
Qed.

Lemma nth_error_update_nth {A : Type} (f : A -> A) l : forall i k,
  nth_error (update_nth i f l) k
  = if (i =? k)%nat then option_map f (nth_error l k) else nth_error l k.
Proof.
  induction l as [|a r IH]; intros i k; simpl.
  - destruct i, k; simpl; try reflexivity; now destruct (_ =? _)%nat.
  - destruct i, k; simpl; try reflexivity. apply IH.
Qed.

Lemma In_remove_nth {A : Type} (a : A) l : forall k,
  In a (remove_nth k l) -> In a l.
Proof.
  induction l as [|b r IH]; intros k; simpl.
  - now destruct k.
  - destruct k; simpl; [tauto|]. intros [H|H]; [tauto|]. right. eauto.
Qed.

(** Obstacles keep their place and their type. *)
Lemma step_obstacle_type e s s' i o :
  step e s = Ok s' -> nth_error (obstacles s) i = Some o ->
  exists o', nth_error (obstacles s') i = Some o' /\ otype o' = otype o.
Proof.
  intros Hs Hn. destruct e as [q|c d|c d now|c|k]; simpl in Hs.
  - inversion Hs; subst s'. unfold connection.
    destruct (chooseClientId q (nextPlayerId s)) as [cid next].
    destruct (Store.lookup cid (players s)); simpl; eauto.
  - unfold join_game in Hs. destruct d as [d|]; [|discriminate].
    destruct (Store.lookup c (players s)); [|discriminate].
    inversion Hs; subst s'. simpl. eauto.
  - unfold sensor in Hs.
    destruct (Store.lookup c (players s)) as [p|] eqn:Hl;
      [|inversion Hs; subst s'; eauto].
    destruct (pstatus p) eqn:Hp; simpl in Hs;
      try (inversion Hs; subst s'; eauto; fail).
    destruct d as [d|].
    2:{ unfold updateGameLogic in Hs. rewrite Hl, Hp in Hs. discriminate. }
    rewrite (updateGameLogic_playing c d now s p Hl Hp) in Hs.
    inversion Hs; subst s'. simpl.
    pose proof (obstaclePass_nth (obstacles s) (integrate d p) 0 i) as H.
    rewrite Hn in H. destruct H as (o' & H1 & H2 & _). eauto.
  - inversion Hs; subst s'. simpl. eauto.
  - inversion Hs; subst s'. unfold fire.
    destruct (nth_error (timers s) k) as [t|]; [|eauto].
    destruct (act t) as [j|target]; simpl; [|eauto].
    rewrite nth_error_update_nth, Hn.
    destruct (j =? i)%nat; simpl; eauto.
Qed.

(** A collided obstacle is left alone by every event but its own
    reactivation. *)
Lemma step_keeps_collided e s s' i o :
  step e s = Ok s' -> nth_error (obstacles s) i = Some o ->
  collided o = true -> ~ reactivates i e s ->
  nth_error (obstacles s') i = Some o.
Proof.
  intros Hs Hn Hc Hr. destruct e as [q|c d|c d now|c|k]; simpl in Hs.
  - inversion Hs; subst s'. unfold connection.
    destruct (chooseClientId q (nextPlayerId s)) as [cid next].
    destruct (Store.lookup cid (players s)); simpl; eauto.
  - unfold join_game in Hs. destruct d as [d|]; [|discriminate].
    destruct (Store.lookup c (players s)); [|discriminate].
    inversion Hs; subst s'. simpl. eauto.
  - unfold sensor in Hs.
    destruct (Store.lookup c (players s)) as [p|] eqn:Hl;
      [|inversion Hs; subst s'; eauto].
    destruct (pstatus p) eqn:Hp; simpl in Hs;
      try (inversion Hs; subst s'; eauto; fail).
    destruct d as [d|].
    2:{ unfold updateGameLogic in Hs. rewrite Hl, Hp in Hs. discriminate. }
    rewrite (updateGameLogic_playing c d now s p Hl Hp) in Hs.
    inversion Hs; subst s'. simpl.
    pose proof (obstaclePass_nth (obstacles s) (integrate d p) 0 i) as H.
    rewrite Hn in H. destruct H as (o' & H1 & _ & H3).
    rewrite H1, (H3 Hc). reflexivity.
  - inversion Hs; subst s'. simpl. eauto.
  - inversion Hs; subst s'. unfold fire.
    destruct (nth_error (timers s) k) as [t|] eqn:Ht; [|eauto].
    destruct (act t) as [j|target] eqn:Ha; simpl; [|eauto].
    rewrite nth_error_update_nth.
    destruct (j =? i)%nat eqn:E; [|exact Hn].
    apply Nat.eqb_eq in E; subst j. exfalso. apply Hr.
    exists k, t. auto.
Qed.

Lemma step_boxes_only e s s' :
  boxes_only s -> step e s = Ok s' -> boxes_only s'.
Proof.
  intros Hinv Hs t i Hin Ha.
  assert (Hold : In t (timers s) ->
                 exists o pts, nth_error (obstacles s') i = Some o /\
                               otype o = box pts).
  { intros H. destruct (Hinv t i H Ha) as (o & pts & Hn & Ho).
    destruct (step_obstacle_type e s s' i o Hs Hn) as (o' & Hn' & Ho').
    exists o', pts. split; [exact Hn' | congruence]. }
  destruct e as [q|c d|c d now|c|k]; simpl in Hs.
  - inversion Hs; subst s'. apply Hold. revert Hin. unfold connection.
    destruct (chooseClientId q (nextPlayerId s)) as [cid next].
    destruct (Store.lookup cid (players s)); simpl; auto.
  - apply Hold. unfold join_game in Hs. destruct d as [d|]; [|discriminate].
    destruct (Store.lookup c (players s)); [|discriminate].
    inversion Hs; subst s'. exact Hin.
  - unfold sensor in Hs.
    destruct (Store.lookup c (players s)) as [p|] eqn:Hl;
      [|inversion Hs; subst s'; auto].
    destruct (pstatus p) eqn:Hp; simpl in Hs;
      try (inversion Hs; subst s'; auto; fail).
    destruct d as [d|].
    2:{ unfold updateGameLogic in Hs. rewrite Hl, Hp in Hs. discriminate. }
    pose proof Hs as Hs0.
    rewrite (updateGameLogic_playing c d now s p Hl Hp) in Hs.
    inversion Hs; subst s'. simpl in Hin.
    apply in_app_or in Hin. destruct Hin as [Hin|Hin]; [auto|].
    apply obstaclePass_timers in Hin.
    destruct Hin as [(k & o & pts & Hk & Hn & Ho)|(target & Hx)]; [|congruence].
    rewrite Ha in Hk. inversion Hk; subst i. simpl.
    pose proof (obstaclePass_nth (obstacles s) (integrate d p) 0 k) as H.
    rewrite Hn in H. destruct H as (o' & H1 & H2 & _).
    exists o', pts. split; [exact H1 | congruence].
  - inversion Hs; subst s'. auto.
  - inversion Hs; subst s'. apply Hold. revert Hin. unfold fire.
    destruct (nth_error (timers s) k) as [t0|]; [|auto].
    destruct (act t0); simpl; apply In_remove_nth.
Qed.

Lemma reachable_boxes_only s : reachable s -> boxes_only s.
Proof.
  induction 1 as [|s e s' _ IH Hs].
  - intros t i [].
  - eapply step_boxes_only; eauto.
Qed.

Lemma run_keeps_bonus es : forall s s' i o eff,
  boxes_only s -> run es s = Ok s' ->
  nth_error (obstacles s) i = Some o -> otype o = bonus eff ->
  collided o = true ->
  nth_error (obstacles s') i = Some o.
Proof.
  induction es as [|e r IH]; intros s s' i o eff Hinv Hr Hn Ho Hc; simpl in Hr.
  - inversion Hr; subst s'. exact Hn.
  - destruct (step e s) as [s1|] eqn:Hs; simpl in Hr; [|discriminate].
    apply (IH s1 s' i o eff); auto.
    + eapply step_boxes_only; eauto.
    + eapply step_keeps_collided; eauto.
      intros (k & t & _ & Ht & Ha).
      apply nth_error_In in Ht.
      destruct (Hinv t i Ht Ha) as (o1 & pts & Hn1 & Ho1). congruence.
Qed.

(** C6: the callback of the obstacle pass leaves the player and an
    obstacle whose [collided] flag is set as they are and starts no
    timer; no event changes such an obstacle except the timer that
    reactivates it; and in every state the server can reach a collided
    bonus stays collided through every sequence of events, for no timer
    ever reactivates a bonus. *)
Theorem collided_obstacle_is_inert :
  (forall p index obs,
     collided obs = true -> hit p index obs = (p, obs, [])) /\
  (forall e s s' i obs,
     step e s = Ok s' -> nth_error (obstacles s) i = Some obs ->
     collided obs = true -> ~ reactivates i e s ->
     nth_error (obstacles s') i = Some obs) /\
  (forall es s s' i obs eff,
     reachable s -> run es s = Ok s' ->
     nth_error (obstacles s) i = Some obs -> otype obs = bonus eff ->
     collided obs = true ->
     nth_error (obstacles s') i = Some obs).
Proof.
  split; [exact hit_collided|]. split; [exact step_keeps_collided|].
  intros es s s' i obs eff Hr. apply run_keeps_bonus.
  now apply reachable_boxes_only.
Qed.

Lemma run_reachable es : forall s s',
  reachable s -> run es s = Ok s' -> reachable s'.
Proof.
  induction es as [|e r IH]; intros s s' Hr H; simpl in H.
  - inversion H; subst s'. exact Hr.
  - destruct (step e s) as [s1|] eqn:Hs; simpl in H; [|discriminate].
    apply (IH s1 s'); [|exact H]. eapply reachable_step; eauto.
Qed.

Lemma collided_obstacle_is_inert_witness :
  hit (racer "P1" 0) 4 taken_bonus = (racer "P1" 0, taken_bonus, []) /\
  nth_error (obstacles after_bonus) 4 = Some taken_bonus /\
  exists s',
    run [Fire 0; Sensor "P1" (Some calm) 0; Fire 0] after_bonus = Ok s' /\
    nth_error (obstacles s') 4 = Some taken_bonus.
Proof.
  destruct collided_obstacle_is_inert as (H1 & _ & H3).
  assert (Hr : reachable after_bonus).
  { apply (run_reachable bonus_trace init); [constructor|].
    vm_compute. reflexivity. }
  assert (Hn : nth_error (obstacles after_bonus) 4 = Some taken_bonus).
  { vm_compute. reflexivity. }
  split; [apply H1; reflexivity|]. split; [exact Hn|].
  destruct (run [Fire 0; Sensor "P1" (Some calm) 0; Fire 0] after_bonus)
    as [s'|] eqn:Hs.
  - exists s'. split; [reflexivity|].
    exact (H3 _ after_bonus s' 4%nat taken_bonus "speed_x2"%string Hr Hs Hn
              eq_refl eq_refl).
  - vm_compute in Hs. discriminate Hs.
Defined.

(** ** Status *)

Lemma sensor_is_update clientId data now s :
  sensor clientId data now s = updateGameLogic clientId data now s.
Proof.
  unfold sensor. destruct (Store.lookup clientId (players s)) as [p|] eqn:Hl.
  - destruct (is_playing (pstatus p)) eqn:Hp; [reflexivity|].
    symmetry. apply updateGameLogic_idle. rewrite Hl.
    intros E. rewrite E in Hp. discriminate.
  - symmetry. apply updateGameLogic_idle. now rewrite Hl.
Qed.

Lemma lapCheck_status now p :
  pstatus p = playing ->
  pstatus (lapCheck now p) = playing \/ pstatus (lapCheck now p) = finished.
Proof.
  intros H. unfold lapCheck. destruct (Num.ltb _ _); [|now left].
  destruct (MAX_LAP <=? _); simpl; auto.
Qed.

Lemma lookup_expire target ps k :
  Store.lookup k
    (map (fun e : string * player =>
            if (oid (snd e) =? target)%nat
            then (fst e, set_speed_x2_active (snd e) false) else e) ps)
  = match Store.lookup k ps with
    | Some p => Some (if (oid p =? target)%nat
                      then set_speed_x2_active p false else p)
    | None => None
    end.
Proof.
  induction ps as [|[k0 v0] r IH]; simpl; [reflexivity|].
  destruct (oid v0 =? target)%nat eqn:E; simpl;
    (destruct (String.eqb k0 k); [now rewrite ?E | exact IH]).
Qed.

Lemma step_status_forward e s s' clientId p :
  step e s = Ok s' ->
  Store.lookup clientId (players s) = Some p ->
  addressed clientId e = false ->
  exists p', Store.lookup clientId (players s') = Some p' /\
             status_rank (pstatus p) <= status_rank (pstatus p').
Proof.
  intros Hs Hl Ha.
  assert (Hsame : forall ps, Store.lookup clientId ps = Some p ->
            exists p', Store.lookup clientId ps = Some p' /\
                       status_rank (pstatus p) <= status_rank (pstatus p')).
  { intros ps H. exists p. split; [exact H | lia]. }
  destruct e as [q|c d|c d now|c|k]; simpl in Hs, Ha.
  - inversion Hs; subst s'. unfold connection.
    destruct (chooseClientId q (nextPlayerId s)) as [cid next].
    destruct (Store.lookup cid (players s)) eqn:Hc; simpl; [auto|].
    apply Hsame. rewrite lookup_set.
    destruct (String.eqb cid clientId) eqn:E; [|exact Hl].
    apply String.eqb_eq in E. congruence.
  - unfold join_game in Hs. destruct d as [d|]; [|discriminate].
    destruct (Store.lookup c (players s)); [|discriminate].
    inversion Hs; subst s'. simpl. apply Hsame.
    now rewrite lookup_set, Ha.
  - rewrite sensor_is_update in Hs.
    destruct (String.eqb c clientId) eqn:E.
    + apply String.eqb_eq in E; subst c.
      destruct (is_playing (pstatus p)) eqn:Hp.
      * assert (Hpl : pstatus p = playing) by (now destruct (pstatus p)).
        destruct d as [d|].
        2:{ unfold updateGameLogic in Hs. rewrite Hl, Hpl in Hs. discriminate. }
        destruct (updateGameLogic_self clientId d now s p Hl) as (s1 & Hu & Hl1).
        rewrite Hu in Hs. inversion Hs; subst s1. rewrite Hp in Hl1.
        eexists. split; [exact Hl1|]. unfold updatedPlayer.
        pose proof (afterPlayers_course clientId d p s) as Hc.
        destruct (integrate_fields d p) as (_&_&_&_&Hst&_).
        unfold same_course in Hc. destruct Hc as (_&_&_&_&_&_&_&Hst2&_).
        destruct (lapCheck_status now (afterPlayers clientId d p s)) as [H|H];
          [congruence| |]; rewrite H, Hpl; simpl; lia.
      * rewrite updateGameLogic_idle in Hs.
        -- inversion Hs; subst s'. auto.
        -- rewrite Hl. intros H. rewrite H in Hp. discriminate.
    + assert (Hne : clientId <> c).
      { intros ->. rewrite String.eqb_refl in E. discriminate. }
      destruct (updateGameLogic_others c d now s s' clientId p Hs Hne Hl)
        as [Hl' | (Hl' & _)]; eexists; (split; [exact Hl'|]); simpl; lia.
  - inversion Hs; subst s'. simpl. apply Hsame.
    now rewrite lookup_delete, Ha.
  - inversion Hs; subst s'. unfold fire.
    destruct (nth_error (timers s) k) as [t|]; [|auto].
    destruct (act t) as [j|target]; simpl; [auto|].
    rewrite lookup_expire, Hl. eexists. split; [reflexivity|].
    destruct (oid p =? target)%nat; simpl; lia.
Qed.

Lemma join_game_sets_playing clientId data s s' :
  join_game clientId data s = Ok s' ->
  exists p', Store.lookup clientId (players s') = Some p' /\
             pstatus p' = playing.
Proof.
  unfold join_game. destruct data as [d|]; [|discriminate].
  destruct (Store.lookup clientId (players s)) as [p|]; [|discriminate].
  intros H. inversion H; subst s'. simpl.
  rewrite lookup_set, String.eqb_refl. eexists. split; reflexivity.
Qed.

(** C1 as amended: through any sequence of events that contains no
    [join_game] and no [disconnect] of a player, the player stays in the
    store and its status is where it was or further along lobby, playing,
    finished; a [join_game] of the player that returns leaves the status
    at [playing], whatever it was before. *)
Theorem status_forward_except_join :
  (forall es s s' clientId p,
     run es s = Ok s' ->
     Store.lookup clientId (players s) = Some p ->
     forallb (fun e => negb (addressed clientId e)) es = true ->
     exists p', Store.lookup clientId (players s') = Some p' /\
                status_rank (pstatus p) <= status_rank (pstatus p')) /\
  (forall clientId data s s',
     join_game clientId data s = Ok s' ->
     exists p', Store.lookup clientId (players s') = Some p' /\
                pstatus p' = playing).
Proof.
  split; [|exact join_game_sets_playing].
  induction es as [|e r IH]; intros s s' clientId p Hr Hl Hf; simpl in *.
  - inversion Hr; subst s'. exists p. split; [exact Hl | lia].
  - apply andb_true_iff in Hf. destruct Hf as [He Hf].
    apply negb_true_iff in He.
    destruct (step e s) as [s1|] eqn:Hs; simpl in Hr; [|discriminate].
    destruct (step_status_forward e s s1 clientId p Hs Hl He) as (p1 & Hl1 & H1).
    destruct (IH s1 s' clientId p1 Hr Hl1 Hf) as (p' & Hl' & H2).
    exists p'. split; [exact Hl' | lia].
Qed.

(** C1 as stated fails: a player who has finished the race and sends
    [join_game] again is back to [playing]. *)
Lemma status_backward_on_join : ~ status_only_forward.
Proof.
  intros H.
  assert (Hr : reachable after_race).
  { apply (run_reachable race_trace init); [constructor|].
    vm_compute. reflexivity. }
  destruct (Store.lookup "P1" (players after_race)) as [p|] eqn:Hl;
    [|vm_compute in Hl; discriminate Hl].
  destruct (join_game "P1" (Some {| room := "game"; jmode := multi |}) after_race)
    as [s'|] eqn:Hj; [|vm_compute in Hj; discriminate Hj].
  destruct (Store.lookup "P1" (players s')) as [p'|] eqn:Hl'.
  - specialize (H after_race
                  (JoinGame "P1" (Some {| room := "game"; jmode := multi |}))
                  s' "P1"%string p p' Hr Hj Hl Hl').
    vm_compute in Hl. inversion Hl; subst p.
    vm_compute in Hj. inversion Hj; subst s'.
    vm_compute in Hl'. inversion Hl'; subst p'.
    vm_compute in H. apply H. reflexivity.
  - vm_compute in Hj. inversion Hj; subst s'. vm_compute in Hl'. discriminate Hl'.
Qed.

Lemma status_forward_except_join_witness :
  exists s' p',
    run [Sensor "P1" (Some calm) 5; Connect None; Fire 0; Disconnect "P2"]
      near_line = Ok s' /\
    Store.lookup "P1" (players s') = Some p' /\
    1 <= status_rank (pstatus p').
Proof.
  destruct (run [Sensor "P1" (Some calm) 5; Connect None; Fire 0; Disconnect "P2"]
              near_line) as [s'|] eqn:Hr; [|vm_compute in Hr; discriminate Hr].
  destruct (proj1 status_forward_except_join _ near_line s' "P1"%string
              (set_lap (set_z (racer "P1" 0) (Fin (-999))) 1) Hr
              eq_refl eq_refl) as (p' & Hl & H).
  exists s', p'. split; [reflexivity|]. split; [exact Hl | exact H].
Defined.

(** ** Ranking *)

Lemma Permutation_three {A : Type} (l : list A) a b c :
  Permutation l [a; b; c] ->
  l = [a; b; c] \/ l = [a; c; b] \/ l = [b; a; c] \/
  l = [b; c; a] \/ l = [c; a; b] \/ l = [c; b; a].
Proof.
  intros H.
  assert (Hlen := Permutation_length H).
  destruct l as [|e1 [|e2 [|e3 [|? ?]]]]; try discriminate.
  assert (Hin : In e1 [a; b; c]) by (eapply Permutation_in; [exact H|now left]).
  destruct Hin as [E|[E|[E|[]]]]; subst e1.
  - apply Permutation_cons_inv, Permutation_sym, Permutation_length_2_inv in H.
    destruct H as [H|H]; inversion H; subst; tauto.
  - assert (H' : Permutation (b :: [e2; e3]) (b :: [a; c])).
    { eapply perm_trans; [exact H|]. apply perm_swap. }
    apply Permutation_cons_inv, Permutation_sym, Permutation_length_2_inv in H'.
    destruct H' as [H'|H']; inversion H'; subst; tauto.
  - assert (H' : Permutation (c :: [e2; e3]) (c :: [a; b])).
    { eapply perm_trans; [exact H|].
      eapply perm_trans; [apply perm_skip, perm_swap|]. apply perm_swap. }
    apply Permutation_cons_inv, Permutation_sym, Permutation_length_2_inv in H'.
    destruct H' as [H'|H']; inversion H'; subst; tauto.
Qed.

Lemma assignRanks_nth len l : forall index i k p,
  nth_error (assignRanks len index l) i = Some (k, p) ->
  finalRank p = Some (index + Z.of_nat i + 1) /\
  totalPoints p = points p + (len - (index + Z.of_nat i)) * 100.
Proof.
  induction l as [|[k0 p0] r IH]; intros index i k p H; simpl in H.
  - now destruct i.
  - destruct i as [|i]; simpl in H.
    + inversion H; subst. simpl. rewrite Z.add_0_r. auto.
    + apply IH in H. rewrite Nat2Z.inj_succ.
      replace (index + Z.succ (Z.of_nat i)) with (index + 1 + Z.of_nat i) by lia.
      exact H.
Qed.

Lemma assignRanks_length len l : forall index,
  List.length (assignRanks len index l) = List.length l.
Proof.
  induction l as [|[k0 p0] r IH]; intros index; simpl; [reflexivity|].
  now rewrite IH.
Qed.

(** C7: with exactly A (multi, finished at 100), B (multi, finished at
    50) and C (multi, playing, lap 1, z = -200) in the store, in any
    order, [calculateRanking] returns B, A, C with ranks 1, 2, 3 and
    [totalPoints] equal to [points] plus 300, 200 and 100; and for every
    store the player at position [i] of the result has rank [i + 1] and
    [totalPoints = points + (length - i) * 100]. *)
Theorem ranking_example :
  (forall s kA kB kC A B C,
     Permutation (players s) [(kA, A); (kB, B); (kC, C)] ->
     pmode A = multi -> pstatus A = finished -> finishTime A = Some 100 ->
     pmode B = multi -> pstatus B = finished -> finishTime B = Some 50 ->
     pmode C = multi -> pstatus C = playing -> lap C = 1 ->
     z C = Fin (-200) ->
     fst (calculateRanking s)
     = [set_ranking B 1 (points B + 3 * 100);
        set_ranking A 2 (points A + 2 * 100);
        set_ranking C 3 (points C + 1 * 100)]) /\
  (forall s i p,
     nth_error (fst (calculateRanking s)) i = Some p ->
     finalRank p = Some (Z.of_nat i + 1) /\
     totalPoints p
     = points p
       + (Z.of_nat (List.length (fst (calculateRanking s))) - Z.of_nat i) * 100).
Proof.
  split.
  - intros s kA kB kC A B C Hp HA1 HA2 HA3 HB1 HB2 HB3 HC1 HC2 HC3 HC4.
    unfold calculateRanking, rankedEntries. simpl fst.
    destruct A, B, C. simpl in *. subst.
    apply Permutation_three in Hp.
    destruct Hp as [H|[H|[H|[H|[H|H]]]]]; rewrite H; vm_compute; reflexivity.
  - intros s i p H. unfold calculateRanking in *. simpl fst in *.
    rewrite length_map. unfold rankedEntries in *.
    rewrite assignRanks_length.
    rewrite nth_error_map in H.
    destruct (nth_error _ i) as [[k q]|] eqn:E; simpl in H; [|discriminate].
    inversion H; subst q. apply assignRanks_nth in E. exact E.
Qed.

Lemma ranking_example_witness :
  fst (calculateRanking podium)
  = [set_ranking playerB 1 (points playerB + 3 * 100);
     set_ranking playerA 2 (points playerA + 2 * 100);
     set_ranking playerC 3 (points playerC + 1 * 100)].
Proof.
  apply (proj1 ranking_example podium "A"%string "B"%string "C"%string);
    solve [apply Permutation_refl | reflexivity].
Defined.

(** ** Handlers: errors and frames *)








(** X4: identifiers given by the server differ whenever the counter
    differs, and the counter advances only when the server gives the
    identifier: a non-empty identifier sent by the client is used as it
    is and leaves the counter alone, an empty one counts as none. *)
Theorem chooseClientId_spec next :
  (forall next', fst (chooseClientId None next) = fst (chooseClientId None next') ->
                 next = next') /\
  snd (chooseClientId None next) = (next + 1)%N /\
  chooseClientId (Some ""%string) next = chooseClientId None next /\
  (forall c r, chooseClientId (Some (String c r)) next = (String c r, next)).
Proof.
  split; [|repeat split].
  intros next' H. simpl in H. inversion H as [H1].
  apply DecimalN.Unsigned.to_uint_inj.
  assert (Hs : Some (N.to_uint next) = Some (N.to_uint next')).
  { rewrite <- !NilEmpty.usu. now rewrite H1. }
  now inversion Hs.
Qed.

(** X5: [disconnect] removes the player and nothing else: the other
    players, the obstacles and the pending timers, those of the player
    that left included, stay. *)
Theorem disconnect_removes_only clientId s :
  let s' := disconnect clientId s in
  Store.lookup clientId (players s') = None /\
  (forall other, other <> clientId ->
     Store.lookup other (players s') = Store.lookup other (players s)) /\
  obstacles s' = obstacles s /\ timers s' = timers s /\
  nextPlayerId s' = nextPlayerId s.
Proof.
  simpl. split; [|split; [|auto]].
  - now rewrite lookup_delete, String.eqb_refl.
  - intros other Hne. rewrite lookup_delete.
    destruct (String.eqb clientId other) eqn:E; [|reflexivity].
    apply String.eqb_eq in E. congruence.
Qed.

(** ** Entries of the store *)

Section StoreEntries.
Context {V : Type}.
Implicit Types (m : Store.t V) (k : string) (v : V).

Lemma lookup_In m k v : Store.lookup k m = Some v -> In (k, v) m.
Proof.
  induction m as [|[k0 v0] r IH]; simpl; [discriminate|].
  destruct (String.eqb k0 k) eqn:E.
  - apply String.eqb_eq in E. intros H. inversion H; subst. now left.
  - intros H. right. auto.
Qed.

Lemma In_replace m k v k' v' :
  In (k', v') (Store.replace k v m) -> (k' = k /\ v' = v) \/ In (k', v') m.
Proof.
  induction m as [|[k0 v0] r IH]; simpl; [tauto|].
  destruct (String.eqb k0 k) eqn:E; simpl.
  - apply String.eqb_eq in E. subst k0.
    intros [H|H]; [inversion H; auto | auto].
  - intros [H|H]; [auto|]. destruct (IH H); auto.
Qed.

Lemma In_insert_new m k v k' v' :
  In (k', v') (Store.insert_new k v m) -> (k' = k /\ v' = v) \/ In (k', v') m.
Proof.
  induction m as [|[k0 v0] r IH]; simpl.
  - intros [H|[]]. inversion H; auto.
  - destruct (Store.array_index k), (Store.array_index k0);
      try destruct (_ <? _); simpl;
      intros [H|H]; try (inversion H; auto; fail); auto;
      try (destruct H as [H|H]; [inversion H; auto | auto]; fail);
      destruct (IH H); auto.
Qed.

Lemma In_set m k v k' v' :
  In (k', v') (Store.set k v m) -> (k' = k /\ v' = v) \/ In (k', v') m.
Proof.
  unfold Store.set. destruct (Store.lookup k m).
  - apply In_replace.
  - apply In_insert_new.
Qed.

Lemma In_delete m k k' v' :
  In (k', v') (Store.delete k m) -> In (k', v') m.
Proof.
  induction m as [|[k0 v0] r IH]; simpl; [tauto|].
  destruct (String.eqb k0 k); simpl; [auto|].
  intros [H|H]; auto.
Qed.

End StoreEntries.

Lemma In_clash clientId l : forall p k q',
  In (k, q') (snd (clash clientId p l)) ->
  exists q, In (k, q) l /\ (q' = q \/ q' = chargeUp q).
Proof.
  induction l as [|[k0 q0] r IH]; intros p k q'; simpl; [tauto|].
  destruct (clashes clientId p k0 q0).
  - set (p2 := set_speed (chargeUp p) _).
    specialize (IH p2 k q'). destruct (clash clientId p2 r) as [p3 r'].
    simpl in *. intros [H|H].
    + inversion H; subst. exists q0. auto.
    + destruct (IH H) as (q & Hq & Hc). exists q. auto.
  - specialize (IH p k q'). destruct (clash clientId p r) as [p3 r'].
    simpl in *. intros [H|H].
    + inversion H; subst. exists q'. auto.
    + destruct (IH H) as (q & Hq & Hc). exists q. auto.
Qed.

Lemma In_playerPass clientId l p k q' :
  In (k, q') (snd (playerPass clientId p l)) ->
  exists q, In (k, q) l /\ (q' = q \/ q' = chargeUp q).
Proof.
  unfold playerPass. destruct (is_multi (pmode p)); simpl.
  - apply In_clash.
  - intros H. exists q'. auto.
Qed.

(** ** Invariants of the reachable states *)

Lemma obstaclePass_layout l : forall p i,
  map (fun o => set_collided o false) (snd (fst (obstaclePass p i l)))
  = map (fun o => set_collided o false) l.
Proof.
  induction l as [|o r IH]; intros p i; simpl; [reflexivity|].
  assert (Ho : set_collided (snd (fst (hit p i o))) false = set_collided o false).
  { unfold hit. destruct (checkCollision p o); [|reflexivity].
    destruct (collided o); [reflexivity|].
    destruct (otype o) as [pts|eff]; [|destruct (String.eqb eff "speed_x2")];
      reflexivity. }
  destruct (hit p i o) as [[p1 o1] t1]. simpl in Ho.
  specialize (IH p1 (S i)).
  destruct (obstaclePass p1 (S i) r) as [[p2 r2] t2]. simpl in *.
  now rewrite Ho, IH.
Qed.

Lemma update_nth_layout l : forall i,
  map (fun o => set_collided o false)
    (update_nth i (fun o => set_collided o false) l)
  = map (fun o => set_collided o false) l.
Proof.
  induction l as [|o r IH]; intros i; destruct i; simpl; try reflexivity.
  now rewrite IH.
Qed.

Lemma step_layout e s s' :
  course_layout s -> step e s = Ok s' -> course_layout s'.
Proof.
  unfold course_layout. intros Hc Hs.
  destruct e as [q|c d|c d now|c|k]; simpl in Hs.
  - inversion Hs; subst s'. unfold connection.
    destruct (chooseClientId q (nextPlayerId s)) as [cid next].
    destruct (Store.lookup cid (players s)); exact Hc.
  - unfold join_game in Hs. destruct d as [d|]; [|discriminate].
    destruct (Store.lookup c (players s)); [|discriminate].
    inversion Hs; subst s'. exact Hc.
  - rewrite sensor_is_update in Hs.
    destruct (Store.lookup c (players s)) as [p|] eqn:Hl.
    2:{ rewrite updateGameLogic_idle in Hs by now rewrite Hl.
        inversion Hs; subst s'. exact Hc. }
    destruct (pstatus p) eqn:Hp.
    1,3: rewrite updateGameLogic_idle in Hs by (rewrite Hl, Hp; discriminate);
         inversion Hs; subst s'; exact Hc.
    destruct d as [d|].
    2:{ unfold updateGameLogic in Hs. rewrite Hl, Hp in Hs. discriminate. }
    rewrite (updateGameLogic_playing c d now s p Hl Hp) in Hs.
    inversion Hs; subst s'. simpl. now rewrite obstaclePass_layout.
  - inversion Hs; subst s'. exact Hc.
  - inversion Hs; subst s'. unfold fire.
    destruct (nth_error (timers s) k) as [t|]; [|exact Hc].
    destruct (act t); simpl; [|exact Hc]. now rewrite update_nth_layout.
Qed.

Lemma layout_points s i o pts :
  course_layout s -> nth_error (obstacles s) i = Some o ->
  otype o = box pts -> pts = 5.
Proof.
  unfold course_layout. intros Hc Hn Ho.
  assert (H : nth_error obstacles0 i = Some (set_collided o false)).
  { rewrite <- Hc. rewrite nth_error_map, Hn. reflexivity. }
  destruct o as [ot a b c d e]. simpl in Ho. subst ot.
  destruct i as [|[|[|[|[|i]]]]]; simpl in H; inversion H; try reflexivity.
  destruct i; discriminate.
Qed.

Lemma charge_within d p :
  Num.within (Fin 0) GEKITOTSU_CHARGE_MAX (gekitotsuForce p) ->
  Num.within (Fin 0) GEKITOTSU_CHARGE_MAX (gekitotsuForce (charge d p)).
Proof.
  intros H. unfold charge. destruct (Num.gtb _ _); simpl; [|exact H].
  now apply within_chargeUp.
Qed.

Lemma integrate_shape d p :
  baseSpeed (integrate d p) = Fin 3 /\
  gekitotsuForce (integrate d p) = gekitotsuForce (charge d p) /\
  speed (integrate d p)
  = (if speed_x2_active (peffects p) then Num.mul (Fin 3) (Fin 2)
     else Num.add (Fin 3) (Num.mul (gekitotsuForce (charge d p)) (Fin (2 # 10)))) /\
  z (integrate d p) = Num.sub (z p) (speed (integrate d p)).
Proof.
  unfold integrate, advance, steer, charge.
  destruct (Num.gtb _ _); simpl;
    destruct (speed_x2_active (peffects p)); simpl; auto.
Qed.

(** The speed of the forward move lies between 3 and 6. *)
Lemma integrate_speed d p :
  Num.within (Fin 0) GEKITOTSU_CHARGE_MAX (gekitotsuForce p) ->
  exists v, speed (integrate d p) = Fin v /\ (3 <= v /\ v <= 6)%Q.
Proof.
  intros H. apply (charge_within d) in H.
  unfold GEKITOTSU_CHARGE_MAX in H. apply within_fin in H.
  destruct H as (c & Hc & H0 & H1).
  destruct (integrate_shape d p) as (_ & _ & Hs & _). rewrite Hs, Hc.
  destruct (speed_x2_active (peffects p)); simpl.
  - eexists. split; [reflexivity|].
    pose proof (Qred_correct (3 * 2)). lra.
  - eexists. split; [reflexivity|].
    pose proof (Qred_correct (c * (2 # 10))).
    pose proof (Qred_correct (3 + Qred (c * (2 # 10)))). lra.
Qed.

Lemma integrate_z d p zq :
  Num.within (Fin 0) GEKITOTSU_CHARGE_MAX (gekitotsuForce p) ->
  z p = Fin zq ->
  exists zz, z (integrate d p) = Fin zz /\ (zq - 6 <= zz /\ zz <= zq - 3)%Q.
Proof.
  intros H Hz. destruct (integrate_speed d p H) as (v & Hv & Hv3 & Hv6).
  destruct (integrate_shape d p) as (_ & _ & _ & Hzq).
  rewrite Hzq, Hv, Hz. simpl.
  eexists. split; [reflexivity|].
  pose proof (Qred_correct (- v)).
  pose proof (Qred_correct (zq + Qred (- v))). lra.
Qed.

Lemma hit_points p i o :
  (forall pts, otype o = box pts -> 0 <= pts) ->
  points p <= points (fst (fst (hit p i o))).
Proof.
  intros H. unfold hit. destruct (checkCollision p o); [|simpl; lia].
  destruct (collided o); [simpl; lia|].
  destruct (otype o) as [pts|eff] eqn:E.
  - simpl. specialize (H pts eq_refl). lia.
  - destruct (String.eqb eff "speed_x2"); simpl; lia.
Qed.

Lemma obstaclePass_points l : forall p i,
  (forall o pts, In o l -> otype o = box pts -> 0 <= pts) ->
  points p <= points (fst (fst (obstaclePass p i l))).
Proof.
  induction l as [|o r IH]; intros p i H; simpl; [lia|].
  pose proof (hit_points p i o (fun pts => H o pts (or_introl eq_refl))) as H1.
  destruct (hit p i o) as [[p1 o1] t1]. simpl in H1.
  specialize (IH p1 (S i) (fun o' pts Hin => H o' pts (or_intror Hin))).
  destruct (obstaclePass p1 (S i) r) as [[p2 r2] t2]. simpl in *. lia.
Qed.

Lemma layout_points_nonneg s o pts :
  course_layout s -> In o (obstacles s) -> otype o = box pts -> 0 <= pts.
Proof.
  intros Hc Hin Ho. apply In_nth_error in Hin. destruct Hin as [i Hi].
  rewrite (layout_points s i o pts Hc Hi Ho). lia.
Qed.

Lemma chargeUp_sound q : sound q -> sound (chargeUp q).
Proof.
  unfold sound, chargeUp. simpl. intros (H1 & H). split; [|exact H].
  now apply within_chargeUp.
Qed.

Lemma newPlayer_sound clientId o : sound (newPlayer clientId o).
Proof.
  unfold sound, newPlayer, MAX_LAP. simpl.
  repeat split; try reflexivity; try lia; try discriminate; try congruence.
Qed.

Lemma resetForJoin_sound m p : sound p -> sound (resetForJoin m p).
Proof.
  unfold sound, resetForJoin, MAX_LAP. simpl.
  intros (_ & Hx & _ & Hy & Hb & _).
  split; [split; reflexivity|]. split; [exact Hx|].
  repeat split; try reflexivity; try lia; try discriminate; try congruence;
    try assumption.
Qed.

Lemma expire_sound p : sound p -> sound (set_speed_x2_active p false).
Proof. unfold sound. simpl. auto. Qed.

(** The update of a playing player keeps it sound. *)
Lemma updatedPlayer_sound clientId d now p s :
  course_layout s -> sound p -> pstatus p = playing ->
  sound (updatedPlayer clientId d now p s).
Proof.
  intros Hlay (Hg & Hx & Hz & Hy & Hb & Hpt & Hlap & Hfin & Hft) Hp.
  destruct (integrate_bounds d p Hg Hx) as [Hg1 Hx1].
  change (Num.neg COURSE_LENGTH_Z) with (Fin (-1000)) in Hz.
  apply within_fin in Hz. destruct Hz as (zq & Hzq & Hz0 & Hz1).
  destruct (integrate_z d p zq Hg Hzq) as (zz & Hzz & Hz2 & Hz3).
  destruct (integrate_fields d p) as (_&_&Hy1&Hl1&Hs1&_&_&Hp1&Hf1&_).
  destruct (integrate_shape d p) as (Hb1 & _).
  pose proof (afterPlayers_course clientId d p s) as Hc.
  unfold same_course in Hc.
  destruct Hc as (_&_&Hcx&Hcy&Hcz&Hcb&Hcl&Hcs&_&Hcf&_).
  assert (Hga : Num.within (Fin 0) GEKITOTSU_CHARGE_MAX
                  (gekitotsuForce (afterPlayers clientId d p s))).
  { unfold afterPlayers.
    apply (playerPass_player clientId (players s) (afterObstacles d p s)).
    unfold afterObstacles. now apply obstaclePass_charge. }
  assert (Hpa : 0 <= points (afterPlayers clientId d p s)).
  { unfold afterPlayers.
    destruct (playerPass_player clientId (players s) (afterObstacles d p s))
      as (_ & Hpp & _). rewrite Hpp. unfold afterObstacles.
    pose proof (obstaclePass_points (obstacles s) (integrate d p) 0
                  (fun o pts => layout_points_nonneg s o pts Hlay)). lia. }
  assert (Hlp : 0 <= lap p <= 1).
  { unfold MAX_LAP in *. destruct (Z.eq_dec (lap p) 2) as [E|E]; [|lia].
    apply Hfin in E. congruence. }
  assert (Hfn : finishTime p = None).
  { destruct (finishTime p) eqn:E; [|reflexivity].
    assert (pstatus p = finished) by (apply Hft; congruence). congruence. }
  set (a := afterPlayers clientId d p s) in *.
  destruct (lapCheck_fields now a) as (_&_&Hx'&Hy'&_&Hb'&Hg'&Hp'&_).
  unfold updatedPlayer. fold a. unfold sound.
  rewrite Hx', Hy', Hb', Hg', Hp'.
  split; [exact Hga|]. split; [now rewrite <- Hcx|].
  split; [|split; [congruence|split; [congruence|split; [exact Hpa|]]]].
  - rewrite lapCheck_z, <- Hcz, Hzz.
    change (Num.neg COURSE_LENGTH_Z) with (Fin (-1000)).
    apply within_fin. simpl.
    destruct (Num.Qltb zz (-1000)) eqn:E; simpl.
    + apply Qltb_lt in E. eexists. split; [reflexivity|].
      pose proof (Qred_correct (zz + 1000)). lra.
    + apply Qltb_ge in E. exists zz. split; [reflexivity|]. lra.
  - unfold lapCheck.
    destruct (Num.ltb (z a) (Num.neg COURSE_LENGTH_Z)); simpl.
    + unfold MAX_LAP in *.
      destruct (2 <=? lap a + 1) eqn:E; simpl.
      * apply Z.leb_le in E. repeat split; try lia; try congruence.
      * apply Z.leb_gt in E.
        repeat split; try lia; try congruence; intros H; exfalso; lia.
    + unfold MAX_LAP in *.
      repeat split; try lia; try congruence; intros H; exfalso;
        try lia; congruence.
Qed.

Lemma step_all_sound e s s' :
  all_sound s -> step e s = Ok s' -> all_sound s'.
Proof.
  intros [Hlay Hall] Hs. split; [eapply step_layout; eauto|].
  intros k p Hin. destruct e as [q|c d|c d now|c|n]; simpl in Hs.
  - inversion Hs; subst s'. revert Hin. unfold connection.
    destruct (chooseClientId q (nextPlayerId s)) as [cid next].
    destruct (Store.lookup cid (players s)); simpl; [apply Hall|].
    intros H. apply In_set in H. destruct H as [[_ ->]|H]; [|eauto].
    apply newPlayer_sound.
  - unfold join_game in Hs. destruct d as [d|]; [|discriminate].
    destruct (Store.lookup c (players s)) as [p0|] eqn:Hl; [|discriminate].
    inversion Hs; subst s'. simpl in Hin.
    apply In_set in Hin. destruct Hin as [[_ ->]|H]; [|eauto].
    apply resetForJoin_sound. apply (Hall c). now apply lookup_In.
  - rewrite sensor_is_update in Hs.
    destruct (Store.lookup c (players s)) as [p0|] eqn:Hl.
    2:{ rewrite updateGameLogic_idle in Hs by now rewrite Hl.
        inversion Hs; subst s'. eauto. }
    destruct (pstatus p0) eqn:Hp.
    1,3: rewrite updateGameLogic_idle in Hs by (rewrite Hl, Hp; discriminate);
         inversion Hs; subst s'; eauto.
    destruct d as [d|].
    2:{ unfold updateGameLogic in Hs. rewrite Hl, Hp in Hs. discriminate. }
    rewrite (updateGameLogic_playing c d now s p0 Hl Hp) in Hs.
    inversion Hs; subst s'. simpl in Hin.
    apply In_set in Hin. destruct Hin as [[_ ->]|H].
    + apply updatedPlayer_sound; auto. apply (Hall c). now apply lookup_In.
    + apply In_playerPass in H. destruct H as (q0 & Hq & [->| ->]).
      * eauto.
      * apply chargeUp_sound. eauto.
  - inversion Hs; subst s'. simpl in Hin. apply In_delete in Hin. eauto.
  - inversion Hs; subst s'. revert Hin. unfold fire.
    destruct (nth_error (timers s) n) as [t|]; [|apply Hall].
    destruct (act t) as [j|target]; simpl; [apply Hall|].
    intros H. apply in_map_iff in H. destruct H as ([k0 p0] & He & H0).
    simpl in He. destruct (oid p0 =? target)%nat; inversion He; subst.
    + apply expire_sound. eauto.
    + eauto.
Qed.

Lemma reachable_all_sound s : reachable s -> all_sound s.
Proof.
  induction 1 as [|s e s' _ IH Hs].
  - split; [reflexivity | intros k p []].
  - eapply step_all_sound; eauto.
Qed.

Lemma two_racers_reachable : reachable two_racers.
Proof.
  apply (run_reachable
           [Connect None; Connect None;
            JoinGame "P1" (Some {| room := "game"; jmode := multi |});
            JoinGame "P2" (Some {| room := "game"; jmode := multi |})] init);
    [constructor | reflexivity].
Qed.

(** X6: in every state the server reaches, every player of the store
    has its charge in [[0, 10]], [x] in [[-250, 250]], [z] in
    [[-1000, 0]], [y] at 0, [baseSpeed] at 3 and no negative points. *)
Theorem reachable_player_bounds s clientId p :
  reachable s ->
  Store.lookup clientId (players s) = Some p ->
  Num.within (Fin 0) GEKITOTSU_CHARGE_MAX (gekitotsuForce p) /\
  Num.within (Num.neg TRACK_WIDTH_X) TRACK_WIDTH_X (x p) /\
  Num.within (Num.neg COURSE_LENGTH_Z) (Fin 0) (z p) /\
  y p = Fin 0 /\ baseSpeed p = Fin 3 /\ 0 <= points p.
Proof.
  intros Hr Hl. apply reachable_all_sound in Hr. destruct Hr as [_ Hall].
  apply lookup_In in Hl. destruct (Hall _ _ Hl) as (H1&H2&H3&H4&H5&H6&_).
  auto 10.
Qed.

Lemma reachable_player_bounds_witness :
  Num.within (Num.neg COURSE_LENGTH_Z) (Fin 0) (z (racer "P2" 1)) /\
  0 <= points (racer "P2" 1).
Proof.
  destruct (reachable_player_bounds two_racers "P2" (racer "P2" 1)
              two_racers_reachable eq_refl) as (_ & _ & H3 & _ & _ & H6).
  exact (conj H3 H6).
Defined.

(** X7: in every state the server reaches, the lap count of a player
    lies between 0 and [MAX_LAP], the player is finished exactly when
    the count is [MAX_LAP], and exactly then its [finishTime] is set. *)
Theorem reachable_lap_status s clientId p :
  reachable s ->
  Store.lookup clientId (players s) = Some p ->
  0 <= lap p <= MAX_LAP /\
  (pstatus p = finished <-> lap p = MAX_LAP) /\
  (pstatus p = finished <-> finishTime p <> None).
Proof.
  intros Hr Hl. apply reachable_all_sound in Hr. destruct Hr as [_ Hall].
  apply lookup_In in Hl. destruct (Hall _ _ Hl) as (_&_&_&_&_&_&H7&H8&H9).
  auto.
Qed.

Lemma reachable_lap_status_witness :
  exists p,
    Store.lookup "P1" (players after_race) = Some p /\
    pstatus p = finished /\ lap p = MAX_LAP /\ finishTime p <> None.
Proof.
  assert (Hr : reachable after_race).
  { apply (run_reachable race_trace init); [constructor|].
    vm_compute. reflexivity. }
  destruct (Store.lookup "P1" (players after_race)) as [p|] eqn:Hl;
    [|vm_compute in Hl; discriminate Hl].
  destruct (reachable_lap_status after_race "P1" p Hr Hl) as (_ & H1 & H2).
  assert (Hf : pstatus p = finished).
  { vm_compute in Hl. inversion Hl. reflexivity. }
  exists p. split; [reflexivity|]. split; [exact Hf|].
  split; [apply H1, Hf | apply H2, Hf].
Defined.

(** X8: the obstacles of every reachable state are the five obstacles
    of the course in their order, with the same type, position, size and
    points; only the [collided] flags differ. *)
Theorem reachable_course_layout s :
  reachable s ->
  map (fun o => set_collided o false) (obstacles s) = obstacles0.
Proof. intros Hr. apply reachable_all_sound in Hr. exact (proj1 Hr). Qed.

Lemma reachable_course_layout_witness :
  map (fun o => set_collided o false) (obstacles after_bonus) = obstacles0 /\
  nth_error (obstacles after_bonus) 4 = Some taken_bonus.
Proof.
  assert (Hr : reachable after_bonus).
  { apply (run_reachable bonus_trace init); [constructor|].
    vm_compute. reflexivity. }
  split; [exact (reachable_course_layout after_bonus Hr)|].
  vm_compute. reflexivity.
Defined.





(** ** Pending timers *)

Lemma reactivations_app i ts us :
  reactivations i (ts ++ us) = (reactivations i ts + reactivations i us)%nat.
Proof. unfold reactivations. now rewrite filter_app, length_app. Qed.

Lemma hit_reactivations p i o j :
  (reactivations j (snd (hit p i o))
   + (if (i =? j)%nat then awaited o else 0))%nat
  = (if (i =? j)%nat then awaited (snd (fst (hit p i o))) else 0)%nat.
Proof.
  unfold hit. destruct (checkCollision p o); [|reflexivity].
  destruct (collided o) eqn:Ec; [reflexivity|].
  destruct (otype o) as [pts|eff] eqn:Et.
  - unfold awaited. simpl. rewrite Et, Ec.
    unfold reactivations, reactivates_index. simpl.
    destruct (i =? j)%nat; reflexivity.
  - destruct (String.eqb eff "speed_x2"); unfold awaited; simpl; rewrite Et;
      destruct (i =? j)%nat; reflexivity.
Qed.

Lemma obstaclePass_reactivations l : forall p i j,
  (reactivations j (snd (obstaclePass p i l))
   + (if (i <=? j)%nat then awaited_at (j - i) l else 0))%nat
  = (if (i <=? j)%nat
     then awaited_at (j - i) (snd (fst (obstaclePass p i l))) else 0)%nat.
Proof.
  induction l as [|o r IH]; intros p i j; simpl.
  - reflexivity.
  - pose proof (hit_reactivations p i o j) as Hh.
    destruct (hit p i o) as [[p1 o1] t1]. simpl in Hh.
    specialize (IH p1 (S i) j).
    destruct (obstaclePass p1 (S i) r) as [[p2 r2] t2]. cbn [snd fst] in *.
    rewrite reactivations_app. unfold awaited_at in *.
    destruct (i =? j)%nat eqn:E.
    + apply Nat.eqb_eq in E. subst j.
      rewrite Nat.leb_refl, Nat.sub_diag. cbn [nth_error].
      assert (Hs : (S i <=? i)%nat = false) by (apply Nat.leb_gt; lia).
      rewrite Hs in IH. lia.
    + apply Nat.eqb_neq in E.
      destruct (i <=? j)%nat eqn:E1.
      * apply Nat.leb_le in E1.
        assert (Hs : (S i <=? j)%nat = true) by (apply Nat.leb_le; lia).
        rewrite Hs in IH.
        replace (j - i)%nat with (S (j - S i)) by lia. cbn [nth_error].
        lia.
      * apply Nat.leb_gt in E1.
        assert (Hs : (S i <=? j)%nat = false) by (apply Nat.leb_gt; lia).
        rewrite Hs in IH. lia.
Qed.

Lemma reactivations_remove_nth i ts : forall k t,
  nth_error ts k = Some t ->
  (reactivations i (remove_nth k ts)
   + (if reactivates_index i t then 1 else 0))%nat
  = reactivations i ts.
Proof.
  unfold reactivations.
  induction ts as [|a r IH]; intros k t H; destruct k; simpl in *;
    try discriminate.
  - inversion H; subst a. destruct (reactivates_index i t); simpl; lia.
  - specialize (IH k t H). destruct (reactivates_index i a); simpl; lia.
Qed.

Lemma awaited_at_update_nth l i j :
  awaited_at i (update_nth j (fun o => set_collided o false) l)
  = if (j =? i)%nat then 0%nat else awaited_at i l.
Proof.
  unfold awaited_at. rewrite nth_error_update_nth.
  destruct (j =? i)%nat; [|reflexivity].
  destruct (nth_error l i) as [o|]; simpl; [|reflexivity].
  unfold awaited. simpl. now destruct (otype o).
Qed.

Lemma step_timers_match e s s' :
  timers_match s -> step e s = Ok s' -> timers_match s'.
Proof.
  unfold timers_match. intros Hinv Hs i.
  destruct e as [q|c d|c d now|c|k]; simpl in Hs.
  - inversion Hs; subst s'. unfold connection.
    destruct (chooseClientId q (nextPlayerId s)) as [cid next].
    destruct (Store.lookup cid (players s)); apply Hinv.
  - unfold join_game in Hs. destruct d as [d|]; [|discriminate].
    destruct (Store.lookup c (players s)); [|discriminate].
    inversion Hs; subst s'. apply Hinv.
  - rewrite sensor_is_update in Hs.
    destruct (Store.lookup c (players s)) as [p|] eqn:Hl.
    2:{ rewrite updateGameLogic_idle in Hs by now rewrite Hl.
        inversion Hs; subst s'. apply Hinv. }
    destruct (pstatus p) eqn:Hp.
    1,3: rewrite updateGameLogic_idle in Hs by (rewrite Hl, Hp; discriminate);
         inversion Hs; subst s'; apply Hinv.
    destruct d as [d|].
    2:{ unfold updateGameLogic in Hs. rewrite Hl, Hp in Hs. discriminate. }
    rewrite (updateGameLogic_playing c d now s p Hl Hp) in Hs.
    inversion Hs; subst s'. simpl.
    rewrite reactivations_app, Hinv.
    pose proof (obstaclePass_reactivations (obstacles s) (integrate d p) 0 i) as H.
    simpl in H. rewrite Nat.sub_0_r in H. lia.
  - inversion Hs; subst s'. apply Hinv.
  - inversion Hs; subst s'. unfold fire.
    destruct (nth_error (timers s) k) as [t|] eqn:Ht; [|apply Hinv].
    pose proof (reactivations_remove_nth i (timers s) k t Ht) as Hr.
    specialize (Hinv i). unfold reactivates_index in Hr.
    destruct (act t) as [j|target]; simpl.
    + rewrite awaited_at_update_nth. destruct (j =? i)%nat eqn:E.
      * assert (Ha : (awaited_at i (obstacles s) <= 1)%nat).
        { unfold awaited_at, awaited.
          destruct (nth_error (obstacles s) i) as [o|]; [|lia].
          destruct (otype o); [destruct (collided o)|]; lia. }
        lia.
      * lia.
    + lia.
Qed.

Lemma reachable_timers_match s : reachable s -> timers_match s.
Proof.
  induction 1 as [|s e s' _ IH Hs].
  - intros i. unfold awaited_at. simpl.
    destruct i as [|[|[|[|[|i]]]]]; try reflexivity. now destruct i.
  - eapply step_timers_match; eauto.
Qed.

(** X11: in every state the server reaches, exactly one reactivation
    is pending for each box whose [collided] flag is set, and none for a
    box that is active, for a bonus, or for an index outside the course:
    a taken box always comes back and reactivations never pile up. *)
Theorem reachable_reactivations s i :
  reachable s ->
  reactivations i (timers s)
  = match nth_error (obstacles s) i with
    | Some o =>
        match otype o with
        | box _ => if collided o then 1%nat else 0%nat
        | bonus _ => 0%nat
        end
    | None => 0%nat
    end.
Proof. intros Hr. apply (reachable_timers_match s Hr i). Qed.

Lemma after_box_reachable : reachable after_box.
Proof.
  apply (run_reachable box_trace init); [constructor|].
  vm_compute. reflexivity.
Qed.

Lemma reachable_reactivations_witness :
  reactivations 0 (timers after_box) = 1%nat /\
  reactivations 1 (timers after_box) = 0%nat /\
  exists o, nth_error (obstacles after_box) 0 = Some o /\ collided o = true.
Proof.
  split; [|split].
  - rewrite (reachable_reactivations after_box 0 after_box_reachable).
    vm_compute. reflexivity.
  - rewrite (reachable_reactivations after_box 1 after_box_reachable).
    vm_compute. reflexivity.
  - vm_compute. eexists. split; reflexivity.
Defined.

(** ** The double-speed effect *)

Lemma hit_boost p i o :
  let '(p1, _, ts) := hit p i o in
  oid p1 = oid p /\
  (speed_x2_active (peffects p1) = true ->
   speed_x2_active (peffects p) = true \/
   exists t, In t ts /\ act t = ExpireBoost (oid p)).
Proof.
  unfold hit. destruct (checkCollision p o); [|auto].
  destruct (collided o); [auto|].
  destruct (otype o) as [pts|eff]; [simpl; auto|].
  destruct (String.eqb eff "speed_x2"); simpl; [|auto].
  split; [reflexivity|]. intros _. right. eexists. split; [left; reflexivity|].
  reflexivity.
Qed.

Lemma obstaclePass_boost l : forall p i,
  let '(p1, _, ts) := obstaclePass p i l in
  oid p1 = oid p /\
  (speed_x2_active (peffects p1) = true ->
   speed_x2_active (peffects p) = true \/
   exists t, In t ts /\ act t = ExpireBoost (oid p)).
Proof.
  induction l as [|o r IH]; intros p i; simpl; [auto|].
  pose proof (hit_boost p i o) as Hh.
  destruct (hit p i o) as [[p1 o1] t1].
  specialize (IH p1 (S i)).
  destruct (obstaclePass p1 (S i) r) as [[p2 r2] t2].
  destruct Hh as [Ho Hh]. destruct IH as [Ho2 IH].
  split; [congruence|]. intros H. destruct (IH H) as [H1|(t & Ht & Ha)].
  - destruct (Hh H1) as [H2|(t & Ht & Ha)]; [auto|].
    right. exists t. split; [apply in_or_app; auto | exact Ha].
  - right. exists t. split; [apply in_or_app; auto | congruence].
Qed.

Lemma In_remove_nth_other {A : Type} (a b : A) l : forall k,
  In a l -> nth_error l k = Some b -> a <> b -> In a (remove_nth k l).
Proof.
  induction l as [|c r IH]; intros k Hin Hn Hne; [destruct Hin|].
  destruct k; simpl in *.
  - inversion Hn; subst c. destruct Hin; [congruence | assumption].
  - destruct Hin as [->|Hin]; [now left | right; eauto].
Qed.

Lemma step_boosts_expire e s s' :
  boosts_expire s -> step e s = Ok s' -> boosts_expire s'.
Proof.
  unfold boosts_expire. intros Hinv Hs k p Hin Hb.
  destruct e as [q|c d|c d now|c|n]; simpl in Hs.
  - inversion Hs; subst s'. revert Hin. unfold connection.
    destruct (chooseClientId q (nextPlayerId s)) as [cid next].
    destruct (Store.lookup cid (players s)); simpl; [eauto|].
    intros H. apply In_set in H. destruct H as [[_ ->]|H]; [|eauto].
    discriminate Hb.
  - unfold join_game in Hs. destruct d as [d|]; [|discriminate].
    destruct (Store.lookup c (players s)) as [p0|] eqn:Hl; [|discriminate].
    inversion Hs; subst s'. simpl in *.
    apply In_set in Hin. destruct Hin as [[_ ->]|H]; [|eauto].
    apply (Hinv c p0); [now apply lookup_In | exact Hb].
  - rewrite sensor_is_update in Hs.
    destruct (Store.lookup c (players s)) as [p0|] eqn:Hl.
    2:{ rewrite updateGameLogic_idle in Hs by now rewrite Hl.
        inversion Hs; subst s'. eauto. }
    destruct (pstatus p0) eqn:Hp.
    1,3: rewrite updateGameLogic_idle in Hs by (rewrite Hl, Hp; discriminate);
         inversion Hs; subst s'; eauto.
    destruct d as [d|].
    2:{ unfold updateGameLogic in Hs. rewrite Hl, Hp in Hs. discriminate. }
    rewrite (updateGameLogic_playing c d now s p0 Hl Hp) in Hs.
    inversion Hs; subst s'. simpl in *.
    assert (Hold : forall k0 q0, In (k0, q0) (players s) ->
              speed_x2_active (peffects q0) = true ->
              exists t, In t (timers s ++
                                snd (obstaclePass (integrate d p0) 0 (obstacles s)))
                        /\ act t = ExpireBoost (oid q0)).
    { intros k0 q0 H1 H2. destruct (Hinv k0 q0 H1 H2) as (t & Ht & Ha).
      exists t. split; [apply in_or_app; auto | exact Ha]. }
    apply In_set in Hin. destruct Hin as [[_ ->]|H].
    + unfold updatedPlayer in *.
      destruct (lapCheck_fields now (afterPlayers c d p0 s))
        as (_&Ho1&_&_&_&_&_&_&_&He1&_).
      rewrite He1 in Hb. rewrite Ho1.
      unfold afterPlayers in *.
      destruct (playerPass_player c (players s) (afterObstacles d p0 s))
        as (Hsc & _ & He2 & _).
      rewrite He2 in Hb.
      assert (Ho2 : oid (fst (playerPass c (afterObstacles d p0 s) (players s)))
                    = oid (afterObstacles d p0 s)).
      { unfold same_course in Hsc. intuition congruence. }
      rewrite Ho2. unfold afterObstacles in *.
      pose proof (obstaclePass_boost (obstacles s) (integrate d p0) 0) as Hob.
      destruct (obstaclePass (integrate d p0) 0 (obstacles s)) as [[p1 o1] ts].
      cbn [fst snd] in *. destruct Hob as [Hoid Hob].
      destruct (integrate_fields d p0) as (_&Hoi&_&_&_&_&Hei&_).
      rewrite Hoid. destruct (Hob Hb) as [H1|(t & Ht & Ha)].
      * rewrite Hei in H1. rewrite Hoi.
        destruct (Hinv c p0 (lookup_In _ _ _ Hl) H1) as (t & Ht & Ha).
        exists t. split; [apply in_or_app; auto | exact Ha].
      * exists t. split; [apply in_or_app; auto | exact Ha].
    + apply In_playerPass in H. destruct H as (q0 & Hq & [->| ->]).
      * eauto.
      * apply (Hold k q0 Hq Hb).
  - inversion Hs; subst s'. simpl in *. apply In_delete in Hin. eauto.
  - inversion Hs; subst s'. revert Hin. unfold fire.
    destruct (nth_error (timers s) n) as [t|] eqn:Ht; [|eauto].
    destruct (act t) as [j|target] eqn:Ha; simpl.
    + intros Hin. destruct (Hinv k p Hin Hb) as (t' & Ht' & Ha').
      exists t'. split; [|exact Ha'].
      apply (In_remove_nth_other t' t (timers s) n Ht' Ht). congruence.
    + intros Hin. apply in_map_iff in Hin.
      destruct Hin as ([k0 p0] & He & H0). simpl in He.
      destruct (oid p0 =? target)%nat eqn:E; inversion He; subst.
      * discriminate Hb.
      * destruct (Hinv k p H0 Hb) as (t' & Ht' & Ha').
        exists t'. split; [|exact Ha'].
        apply (In_remove_nth_other t' t (timers s) n Ht' Ht).
        intros ->. rewrite Ha in Ha'. inversion Ha'; subst target.
        rewrite Nat.eqb_refl in E. discriminate.
Qed.

Lemma reachable_boosts_expire s : reachable s -> boosts_expire s.
Proof.
  induction 1 as [|s e s' _ IH Hs].
  - intros k p [].
  - eapply step_boosts_expire; eauto.
Qed.

Lemma hit_delays p i o t :
  In t (snd (hit p i o)) -> delay_for (act t) = delay t.
Proof.
  unfold hit. destruct (checkCollision p o); [|intros []].
  destruct (collided o); [intros []|].
  destruct (otype o) as [pts|eff]; [|destruct (String.eqb eff "speed_x2")];
    simpl; intros H; try tauto; destruct H as [<-|[]]; reflexivity.
Qed.

Lemma obstaclePass_delays l : forall p i t,
  In t (snd (obstaclePass p i l)) -> delay_for (act t) = delay t.
Proof.
  induction l as [|o r IH]; intros p i t; simpl; [intros []|].
  pose proof (hit_delays p i o t) as Hh.
  destruct (hit p i o) as [[p1 o1] t1]. specialize (IH p1 (S i) t).
  destruct (obstaclePass p1 (S i) r) as [[p2 r2] t2]. cbn [snd] in *.
  intros H. apply in_app_or in H. destruct H; auto.
Qed.

Lemma reachable_delays s t :
  reachable s -> In t (timers s) -> delay_for (act t) = delay t.
Proof.
  intros Hr. revert t. induction Hr as [|s e s' _ IH Hs]; [intros t []|].
  intros t Hin. destruct e as [q|c d|c d now|c|n]; simpl in Hs.
  - inversion Hs; subst s'. apply IH. revert Hin. unfold connection.
    destruct (chooseClientId q (nextPlayerId s)) as [cid next].
    destruct (Store.lookup cid (players s)); auto.
  - unfold join_game in Hs. destruct d as [d|]; [|discriminate].
    destruct (Store.lookup c (players s)); [|discriminate].
    inversion Hs; subst s'. auto.
  - rewrite sensor_is_update in Hs.
    destruct (Store.lookup c (players s)) as [p0|] eqn:Hl.
    2:{ rewrite updateGameLogic_idle in Hs by now rewrite Hl.
        inversion Hs; subst s'. auto. }
    destruct (pstatus p0) eqn:Hp.
    1,3: rewrite updateGameLogic_idle in Hs by (rewrite Hl, Hp; discriminate);
         inversion Hs; subst s'; auto.
    destruct d as [d|].
    2:{ unfold updateGameLogic in Hs. rewrite Hl, Hp in Hs. discriminate. }
    rewrite (updateGameLogic_playing c d now s p0 Hl Hp) in Hs.
    inversion Hs; subst s'. simpl in Hin.
    apply in_app_or in Hin. destruct Hin as [Hin|Hin]; [auto|].
    eapply obstaclePass_delays; eauto.
  - inversion Hs; subst s'. auto.
  - inversion Hs; subst s'. apply IH. revert Hin. unfold fire.
    destruct (nth_error (timers s) n) as [t0|]; [|auto].
    destruct (act t0); simpl; apply In_remove_nth.
Qed.

(** X12: in every state the server reaches, a player of the store
    whose double-speed flag is set has an expiry callback pending for
    its own object, with the delay of 5000 ms, so no boost lasts for
    ever; neither a new race nor any other event drops that callback
    before it has run. *)
Theorem reachable_boost_expires s clientId p :
  reachable s ->
  Store.lookup clientId (players s) = Some p ->
  speed_x2_active (peffects p) = true ->
  exists t, In t (timers s) /\ act t = ExpireBoost (oid p) /\ delay t = 5000.
Proof.
  intros Hr Hl Hb.
  destruct (reachable_boosts_expire s Hr clientId p (lookup_In _ _ _ Hl) Hb)
    as (t & Ht & Ha).
  exists t. split; [exact Ht|]. split; [exact Ha|].
  rewrite <- (reachable_delays s t Hr Ht), Ha. reflexivity.
Qed.

Lemma reachable_boost_expires_witness :
  exists p t,
    Store.lookup "P1" (players after_bonus) = Some p /\
    speed_x2_active (peffects p) = true /\
    In t (timers after_bonus) /\ act t = ExpireBoost (oid p).
Proof.
  assert (Hr : reachable after_bonus).
  { apply (run_reachable bonus_trace init); [constructor|].
    vm_compute. reflexivity. }
  destruct (Store.lookup "P1" (players after_bonus)) as [p|] eqn:Hl;
    [|vm_compute in Hl; discriminate Hl].
  assert (Hb : speed_x2_active (peffects p) = true).
  { vm_compute in Hl. inversion Hl. reflexivity. }
  destruct (reachable_boost_expires after_bonus "P1" p Hr Hl Hb)
    as (t & Ht & Ha & _).
  exists p, t. split; [reflexivity|]. split; [exact Hb|]. split; [exact Ht|exact Ha].
Defined.

(** ** Keys and objects of the store *)

Section StoreKeys.
Context {V : Type}.
Implicit Types (m : Store.t V) (k : string) (v : V).

Lemma keys_replace m k v : map fst (Store.replace k v m) = map fst m.
Proof.
  induction m as [|[k0 v0] r IH]; simpl; [reflexivity|].
  destruct (String.eqb k0 k); simpl; [reflexivity | now rewrite IH].
Qed.

Lemma map_replace {B : Type} (f : V -> B) m k v v0 :
  Store.lookup k m = Some v0 -> f v = f v0 ->
  map (fun e => f (snd e)) (Store.replace k v m) = map (fun e => f (snd e)) m.
Proof.
  induction m as [|[k1 v1] r IH]; simpl; [reflexivity|].
  destruct (String.eqb k1 k); simpl.
  - intros H E. inversion H; subst. now rewrite E.
  - intros H E. now rewrite IH.
Qed.

Lemma insert_new_perm m k v : Permutation (Store.insert_new k v m) ((k, v) :: m).
Proof.
  induction m as [|[k0 v0] r IH]; simpl; [apply Permutation_refl|].
  destruct (Store.array_index k), (Store.array_index k0);
    try destruct (_ <? _); try apply Permutation_refl;
    (eapply perm_trans; [apply perm_skip, IH | apply perm_swap]).
Qed.

Lemma lookup_none_keys m k : Store.lookup k m = None -> ~ In k (map fst m).
Proof.
  induction m as [|[k0 v0] r IH]; simpl; [tauto|].
  destruct (String.eqb k0 k) eqn:E; [discriminate|].
  apply String.eqb_neq in E. intros H [H1|H1]; [congruence | now apply IH].
Qed.

Lemma keys_delete m k : ~ In k (map fst (Store.delete k m)).
Proof.
  induction m as [|[k0 v0] r IH]; simpl; [tauto|].
  destruct (String.eqb k0 k) eqn:E; [exact IH|].
  apply String.eqb_neq in E. simpl. intros [H|H]; [congruence | now apply IH].
Qed.

Lemma NoDup_map_delete {B : Type} (f : string * V -> B) m k :
  NoDup (map f m) -> NoDup (map f (Store.delete k m)).
Proof.
  induction m as [|[k0 v0] r IH]; simpl; [auto|].
  intros H. inversion H as [|? ? Hn Hd]; subst.
  destruct (String.eqb k0 k); [auto|]. simpl. constructor; [|auto].
  intros Hin. apply Hn. apply in_map_iff in Hin.
  destruct Hin as ([k1 v1] & E & Hin). apply In_delete in Hin.
  rewrite <- E. now apply in_map.
Qed.

Lemma NoDup_keys_lookup m k v :
  NoDup (map fst m) -> In (k, v) m -> Store.lookup k m = Some v.
Proof.
  induction m as [|[k0 v0] r IH]; simpl; [tauto|].
  intros H Hin. inversion H as [|? ? Hn Hd]; subst.
  destruct Hin as [E|Hin].
  - inversion E; subst. now rewrite String.eqb_refl.
  - destruct (String.eqb k0 k) eqn:E; [|auto].
    apply String.eqb_eq in E. subst k0. exfalso. apply Hn.
    change k with (fst (k, v)). now apply in_map.
Qed.

End StoreKeys.

Lemma NoDup_map_inj {A B : Type} (f : A -> B) (l : list A) a b :
  NoDup (map f l) -> In a l -> In b l -> f a = f b -> a = b.
Proof.
  induction l as [|c r IH]; simpl; [tauto|].
  intros H Ha Hb E. inversion H as [|? ? Hn Hd]; subst.
  destruct Ha as [->|Ha], Hb as [->|Hb]; auto.
  - exfalso. apply Hn. rewrite E. now apply in_map.
  - exfalso. apply Hn. rewrite <- E. now apply in_map.
Qed.

Lemma clash_keys_oids clientId l : forall p,
  map fst (snd (clash clientId p l)) = map fst l /\
  map (fun e => oid (snd e)) (snd (clash clientId p l))
  = map (fun e => oid (snd e)) l.
Proof.
  induction l as [|[k q] r IH]; intros p; simpl; [auto|].
  destruct (clashes clientId p k q).
  - set (p2 := set_speed (chargeUp p) _). specialize (IH p2).
    destruct (clash clientId p2 r) as [p3 r']. simpl in *.
    destruct IH as [-> ->]. auto.
  - specialize (IH p). destruct (clash clientId p r) as [p3 r']. simpl in *.
    destruct IH as [-> ->]. auto.
Qed.

Lemma playerPass_keys_oids clientId l p :
  map fst (snd (playerPass clientId p l)) = map fst l /\
  map (fun e => oid (snd e)) (snd (playerPass clientId p l))
  = map (fun e => oid (snd e)) l.
Proof.
  unfold playerPass. destruct (is_multi (pmode p)); [|auto].
  apply clash_keys_oids.
Qed.

Lemma playerPass_self clientId l p p0 :
  Store.lookup clientId l = Some p0 ->
  Store.lookup clientId (snd (playerPass clientId p l)) = Some p0.
Proof.
  intros H. rewrite playerPass_store, H. unfold clashes.
  rewrite String.eqb_refl. simpl. now rewrite andb_false_r.
Qed.

Lemma updatedPlayer_identity clientId d now p s :
  id (updatedPlayer clientId d now p s) = id p /\
  oid (updatedPlayer clientId d now p s) = oid p.
Proof.
  unfold updatedPlayer.
  destruct (lapCheck_fields now (afterPlayers clientId d p s)) as (H1&H2&_).
  pose proof (afterPlayers_course clientId d p s) as Hc.
  unfold same_course in Hc. destruct Hc as (H3&H4&_).
  destruct (integrate_fields d p) as (H5&H6&_).
  split; congruence.
Qed.

Lemma expire_keys_oids target ps :
  map fst
    (map (fun e : string * player =>
            if (oid (snd e) =? target)%nat
            then (fst e, set_speed_x2_active (snd e) false) else e) ps)
  = map fst ps /\
  map (fun e => oid (snd e))
    (map (fun e : string * player =>
            if (oid (snd e) =? target)%nat
            then (fst e, set_speed_x2_active (snd e) false) else e) ps)
  = map (fun e => oid (snd e)) ps.
Proof.
  induction ps as [|[k p] r [IH1 IH2]]; simpl; [auto|].
  rewrite IH1, IH2. destruct (oid p =? target)%nat; auto.
Qed.

Lemma step_well_formed e s s' :
  well_formed s -> step e s = Ok s' -> well_formed s'.
Proof.
  intros (Hk & Ho & Hall) Hs.
  destruct e as [q|c d|c d now|c|n]; simpl in Hs.
  - inversion Hs; subst s'; clear Hs. unfold connection.
    destruct (chooseClientId q (nextPlayerId s)) as [cid next].
    destruct (Store.lookup cid (players s)) eqn:Hl; [exact (conj Hk (conj Ho Hall))|].
    unfold well_formed, Store.set. simpl. rewrite Hl.
    pose proof (insert_new_perm (players s) cid (newPlayer cid (nextOid s))) as Hp.
    split; [|split].
    + apply (Permutation_NoDup (Permutation_sym (Permutation_map fst Hp))).
      simpl. constructor; [now apply lookup_none_keys | exact Hk].
    + apply (Permutation_NoDup
               (Permutation_sym (Permutation_map (fun e => oid (snd e)) Hp))).
      simpl. constructor; [|exact Ho].
      intros Hin. apply in_map_iff in Hin. destruct Hin as ([k p] & E & Hin).
      simpl in E. destruct (Hall k p Hin) as [_ Hlt]. lia.
    + intros k p Hin. apply In_insert_new in Hin.
      destruct Hin as [[-> ->]|Hin]; [simpl; auto|].
      destruct (Hall k p Hin). auto.
  - unfold join_game in Hs. destruct d as [d|]; [|discriminate].
    destruct (Store.lookup c (players s)) as [p0|] eqn:Hl; [|discriminate].
    inversion Hs; subst s'; clear Hs. unfold well_formed, Store.set. simpl.
    rewrite Hl, keys_replace.
    rewrite (map_replace oid (players s) c (resetForJoin (jmode d) p0) p0 Hl
               eq_refl).
    split; [exact Hk|]. split; [exact Ho|].
    intros k p Hin. apply In_replace in Hin.
    destruct Hin as [[-> ->]|Hin]; [|auto]. simpl.
    apply (Hall c p0). now apply lookup_In.
  - rewrite sensor_is_update in Hs.
    destruct (Store.lookup c (players s)) as [p0|] eqn:Hl.
    2:{ rewrite updateGameLogic_idle in Hs by now rewrite Hl.
        inversion Hs; subst s'. exact (conj Hk (conj Ho Hall)). }
    destruct (pstatus p0) eqn:Hp.
    1,3: rewrite updateGameLogic_idle in Hs by (rewrite Hl, Hp; discriminate);
         inversion Hs; subst s'; exact (conj Hk (conj Ho Hall)).
    destruct d as [d|].
    2:{ unfold updateGameLogic in Hs. rewrite Hl, Hp in Hs. discriminate. }
    rewrite (updateGameLogic_playing c d now s p0 Hl Hp) in Hs.
    inversion Hs; subst s'; clear Hs. unfold well_formed, Store.set. simpl.
    pose proof (playerPass_self c (players s) (afterObstacles d p0 s) p0 Hl) as Hl2.
    destruct (playerPass_keys_oids c (players s) (afterObstacles d p0 s))
      as [Hpk Hpo].
    destruct (updatedPlayer_identity c d now p0 s) as [Hid Hoid].
    rewrite Hl2, keys_replace, Hpk.
    rewrite (map_replace oid _ c _ p0 Hl2 Hoid), Hpo.
    split; [exact Hk|]. split; [exact Ho|].
    intros k p Hin. apply In_replace in Hin. destruct Hin as [[-> ->]|Hin].
    + rewrite Hid, Hoid. apply (Hall c p0). now apply lookup_In.
    + apply In_playerPass in Hin. destruct Hin as (q0 & Hq & [->| ->]);
        apply (Hall k q0 Hq).
  - inversion Hs; subst s'; clear Hs. unfold well_formed. simpl.
    split; [now apply NoDup_map_delete|]. split; [now apply NoDup_map_delete|].
    intros k p Hin. apply In_delete in Hin. auto.
  - inversion Hs; subst s'; clear Hs. unfold fire.
    destruct (nth_error (timers s) n) as [t|]; [|exact (conj Hk (conj Ho Hall))].
    destruct (act t) as [j|target]; [exact (conj Hk (conj Ho Hall))|].
    unfold well_formed. simpl.
    destruct (expire_keys_oids target (players s)) as [-> ->].
    split; [exact Hk|]. split; [exact Ho|].
    intros k p Hin. apply in_map_iff in Hin.
    destruct Hin as ([k0 p0] & E & Hin). simpl in E.
    destruct (oid p0 =? target)%nat; inversion E; subst; simpl;
      apply (Hall _ _ Hin).
Qed.

Lemma reachable_well_formed s : reachable s -> well_formed s.
Proof.
  induction 1 as [|s e s' _ IH Hs].
  - unfold well_formed. simpl.
    split; [constructor|]. split; [constructor|]. intros k p [].
  - eapply step_well_formed; eauto.
Qed.

(** X13: in every state the server reaches, the store holds each
    identifier once, the [id] field of a player is its key, and the
    entry found under a key is the only entry with that key. *)
Theorem reachable_store_is_map s :
  reachable s ->
  NoDup (map fst (players s)) /\
  forall k p, In (k, p) (players s) <->
              Store.lookup k (players s) = Some p /\ id p = k.
Proof.
  intros Hr. destruct (reachable_well_formed s Hr) as (Hk & _ & Hall).
  split; [exact Hk|]. intros k p. split.
  - intros Hin. split; [now apply NoDup_keys_lookup | apply (Hall k p Hin)].
  - intros [Hl _]. now apply lookup_In.
Qed.

Lemma reachable_store_is_map_witness :
  NoDup (map fst (players two_racers)) /\
  id (racer "P2" 1) = "P2"%string.
Proof.
  destruct (reachable_store_is_map two_racers two_racers_reachable) as [H1 H2].
  split; [exact H1|].
  apply (proj1 (H2 "P2"%string (racer "P2" 1))). right. left. reflexivity.
Defined.

Lemma step_departed o e s s' :
  departed o s -> step e s = Ok s' -> departed o s'.
Proof.
  intros [Hlt Hall] Hs. unfold departed.
  destruct e as [q|c d|c d now|c|n]; simpl in Hs.
  - inversion Hs; subst s'; clear Hs. unfold connection.
    destruct (chooseClientId q (nextPlayerId s)) as [cid next].
    destruct (Store.lookup cid (players s)) eqn:Hl; simpl; [auto|].
    split; [lia|]. intros k p Hin. apply In_set in Hin.
    destruct Hin as [[_ ->]|Hin]; [simpl; lia | eauto].
  - unfold join_game in Hs. destruct d as [d|]; [|discriminate].
    destruct (Store.lookup c (players s)) as [p0|] eqn:Hl; [|discriminate].
    inversion Hs; subst s'; clear Hs. simpl. split; [exact Hlt|].
    intros k p Hin. apply In_set in Hin. destruct Hin as [[_ ->]|Hin]; [|eauto].
    simpl. apply (Hall c p0). now apply lookup_In.
  - rewrite sensor_is_update in Hs.
    destruct (Store.lookup c (players s)) as [p0|] eqn:Hl.
    2:{ rewrite updateGameLogic_idle in Hs by now rewrite Hl.
        inversion Hs; subst s'. auto. }
    destruct (pstatus p0) eqn:Hp.
    1,3: rewrite updateGameLogic_idle in Hs by (rewrite Hl, Hp; discriminate);
         inversion Hs; subst s'; auto.
    destruct d as [d|].
    2:{ unfold updateGameLogic in Hs. rewrite Hl, Hp in Hs. discriminate. }
    rewrite (updateGameLogic_playing c d now s p0 Hl Hp) in Hs.
    inversion Hs; subst s'; clear Hs. simpl. split; [exact Hlt|].
    intros k p Hin. apply In_set in Hin. destruct Hin as [[_ ->]|Hin].
    + rewrite (proj2 (updatedPlayer_identity c d now p0 s)).
      apply (Hall c p0). now apply lookup_In.
    + apply In_playerPass in Hin. destruct Hin as (q0 & Hq & [->| ->]);
        apply (Hall k q0 Hq).
  - inversion Hs; subst s'; clear Hs. simpl. split; [exact Hlt|].
    intros k p Hin. apply In_delete in Hin. eauto.
  - inversion Hs; subst s'; clear Hs. unfold fire.
    destruct (nth_error (timers s) n) as [t|]; [|auto].
    destruct (act t) as [j|target]; simpl; [auto|]. split; [exact Hlt|].
    intros k p Hin. apply in_map_iff in Hin.
    destruct Hin as ([k0 p0] & E & Hin). simpl in E.
    destruct (oid p0 =? target)%nat; inversion E; subst; simpl;
      apply (Hall _ _ Hin).
Qed.

Lemma run_departed o es : forall s s',
  departed o s -> run es s = Ok s' -> departed o s'.
Proof.
  induction es as [|e r IH]; intros s s' Hd Hr; simpl in Hr.
  - inversion Hr; subst s'. exact Hd.
  - destruct (step e s) as [s1|] eqn:Hs; simpl in Hr; [|discriminate].
    apply (IH s1 s'); [|exact Hr]. eapply step_departed; eauto.
Qed.

Lemma expire_departed o s :
  departed o s -> runAction (ExpireBoost o) s = s.
Proof.
  intros [_ Hall]. unfold runAction, with_players. destruct s as [ps n ob ts no].
  simpl in *. f_equal.
  induction ps as [|[k p] r IH]; simpl; [reflexivity|].
  rewrite IH by (intros k0 q0 Hin; apply (Hall k0 q0); now right).
  assert (Hne : oid p <> o) by (apply (Hall k p); now left).
  apply Nat.eqb_neq in Hne. now rewrite Hne.
Qed.

(** X14: once a player has disconnected, the boost-expiry callback of
    its object changes nothing whenever it runs later, even after the
    same identifier has connected again: the callback writes to the
    object it captured, which is no longer in the store. *)
Theorem expiry_after_disconnect s clientId p es s' :
  reachable s ->
  Store.lookup clientId (players s) = Some p ->
  run es (disconnect clientId s) = Ok s' ->
  runAction (ExpireBoost (oid p)) s' = s'.
Proof.
  intros Hr Hl Hrun. apply expire_departed.
  apply (run_departed (oid p) es (disconnect clientId s) s'); [|exact Hrun].
  destruct (reachable_well_formed s Hr) as (Hk & Ho & Hall).
  pose proof (lookup_In _ _ _ Hl) as Hin.
  split; [apply (Hall clientId p Hin)|].
  intros k q Hq E. simpl in Hq.
  assert (Hkq : k <> clientId).
  { intros ->. apply (keys_delete (players s) clientId).
    change clientId with (fst (clientId, q)). now apply in_map. }
  apply In_delete in Hq.
  pose proof (NoDup_map_inj (fun e => oid (snd e)) (players s)
                (k, q) (clientId, p) Ho Hq Hin E) as H.
  inversion H. congruence.
Qed.

Lemma after_bonus_reachable : reachable after_bonus.
Proof.
  apply (run_reachable bonus_trace init); [constructor|].
  vm_compute. reflexivity.
Qed.

Lemma expiry_after_disconnect_witness :
  exists p s',
    Store.lookup "P1" (players after_bonus) = Some p /\
    run [Connect (Some "P1"%string);
         JoinGame "P1" (Some {| room := "game"; jmode := solo |})]
      (disconnect "P1" after_bonus) = Ok s' /\
    runAction (ExpireBoost (oid p)) s' = s'.
Proof.
  destruct (Store.lookup "P1" (players after_bonus)) as [p|] eqn:Hl;
    [|vm_compute in Hl; discriminate Hl].
  destruct (run [Connect (Some "P1"%string);
                 JoinGame "P1" (Some {| room := "game"; jmode := solo |})]
              (disconnect "P1" after_bonus)) as [s'|] eqn:Hr;
    [|vm_compute in Hr; discriminate Hr].
  exists p, s'. split; [reflexivity|]. split; [reflexivity|].
  exact (expiry_after_disconnect after_bonus "P1" p _ s'
           after_bonus_reachable Hl Hr).
Defined.

(** ** The order of the ranking *)

Lemma positive_ofZ n : Num.ltb (Fin 0) (Num.ofZ n) = true <-> 0 < n.
Proof.
  unfold Num.ofZ. simpl. rewrite Qltb_lt.
  unfold Qlt, inject_Z. simpl. lia.
Qed.

Lemma positive_sub a b :
  Num.ltb (Fin 0) (Num.sub (Fin a) (Fin b)) = true <-> (b < a)%Q.
Proof.
  unfold Num.sub. simpl. rewrite Qltb_lt.
  pose proof (Qred_correct (- b)). pose proof (Qred_correct (a + Qred (- b))).
  split; intros; lra.
Qed.

Lemma compareRank_ahead a b :
  finite (z a) -> finite (z b) ->
  (Num.ltb (Fin 0) (compareRank a b) = false <-> ahead a b).
Proof.
  intros [za Ha] [zb Hb]. unfold compareRank, ahead, timeOf.
  destruct (is_finished (pstatus a)), (is_finished (pstatus b));
    cbn [andb negb].
  - rewrite <- not_true_iff_false, positive_ofZ. lia.
  - split; [auto | reflexivity].
  - split; [discriminate | tauto].
  - destruct (lap a =? lap b) eqn:E; cbn [negb].
    + apply Z.eqb_eq in E. rewrite Ha, Hb.
      rewrite <- not_true_iff_false, positive_sub. cbn [Num.leb].
      rewrite Qle_bool_iff. split.
      * intros H. right. split; [exact E|]. lra.
      * intros [H|[_ H]]; [lia | lra].
    + apply Z.eqb_neq in E.
      rewrite <- not_true_iff_false, positive_ofZ. split.
      * intros H. left. lia.
      * intros [H|[H _]]; [lia | congruence].
Qed.

Lemma ahead_total a b :
  finite (z a) -> finite (z b) -> ahead a b \/ ahead b a.
Proof.
  intros [za Ha] [zb Hb]. unfold ahead.
  destruct (is_finished (pstatus a)), (is_finished (pstatus b)); auto; [lia|].
  rewrite Ha, Hb. simpl. rewrite !Qle_bool_iff.
  destruct (Z.lt_trichotomy (lap a) (lap b)) as [H|[H|H]]; auto.
  destruct (Qlt_le_dec zb za) as [Hq|Hq].
  - right. right. split; [lia | lra].
  - left. right. split; [lia | lra].
Qed.

Lemma ahead_trans a b c :
  finite (z a) -> finite (z b) -> finite (z c) ->
  ahead a b -> ahead b c -> ahead a c.
Proof.
  intros [za Ha] [zb Hb] [zc Hc]. unfold ahead.
  destruct (is_finished (pstatus a)), (is_finished (pstatus b)),
    (is_finished (pstatus c)); auto; try tauto; try lia.
  rewrite Ha, Hb, Hc. simpl. rewrite !Qle_bool_iff.
  intros [H1|[H1 H2]] [H3|[H3 H4]]; try (left; lia).
  right. split; [lia | lra].
Qed.

Section Sorting.
Variable ok : string * player -> Prop.
Hypothesis ok_finite : forall e, ok e -> finite (z (snd e)).

Lemma insert_perm a l : Permutation (insert compareRank a l) (a :: l).
Proof.
  induction l as [|e r IH]; cbn [insert]; [apply Permutation_refl|].
  destruct (Num.ltb (Fin 0) (compareRank (snd a) (snd e)));
    [|apply Permutation_refl].
  eapply perm_trans; [apply perm_skip, IH | apply perm_swap].
Qed.

Lemma sort_perm l : Permutation (sort compareRank l) l.
Proof.
  induction l as [|a r IH]; simpl; [constructor|].
  eapply perm_trans; [apply insert_perm | now apply perm_skip].
Qed.

Lemma insert_sorted a l :
  ok a -> Forall ok l ->
  StronglySorted (fun e f => ahead (snd e) (snd f)) l ->
  StronglySorted (fun e f => ahead (snd e) (snd f)) (insert compareRank a l).
Proof.
  intros Ha Hl Hs. induction Hs as [|e r Hs IH Hf]; cbn [insert].
  - constructor; [constructor | constructor].
  - inversion Hl as [|? ? He Hr]; subst.
    destruct (Num.ltb (Fin 0) (compareRank (snd a) (snd e))) eqn:E.
    + constructor; [now apply IH|].
      apply (Permutation_Forall (Permutation_sym (insert_perm a r))).
      constructor; [|exact Hf].
      destruct (ahead_total (snd a) (snd e)) as [H|H]; auto.
      apply compareRank_ahead in H; auto. congruence.
    + apply compareRank_ahead in E; auto.
      constructor; [constructor; assumption|].
      constructor; [exact E|].
      rewrite Forall_forall in *. intros f Hin.
      apply (ahead_trans (snd a) (snd e) (snd f)); auto.
Qed.

Lemma sort_sorted l :
  Forall ok l ->
  StronglySorted (fun e f => ahead (snd e) (snd f)) (sort compareRank l).
Proof.
  induction l as [|a r IH]; simpl; intros H; [constructor|].
  inversion H; subst. apply insert_sorted; auto.
  apply (Permutation_Forall (Permutation_sym (sort_perm r))). assumption.
Qed.

End Sorting.

Lemma assignRanks_Forall (Q : player -> Prop) len l : forall i,
  (forall q r t, Q q -> Q (set_ranking q r t)) ->
  Forall (fun e => Q (snd e)) l ->
  Forall Q (map snd (assignRanks len i l)).
Proof.
  induction l as [|[k p] r IH]; intros i HQ H; simpl; [constructor|].
  inversion H; subst. constructor; [now apply HQ | now apply IH].
Qed.

Lemma assignRanks_sorted len l : forall i,
  StronglySorted (fun e f => ahead (snd e) (snd f)) l ->
  StronglySorted ahead (map snd (assignRanks len i l)).
Proof.
  induction l as [|[k p] r IH]; intros i H; simpl; [constructor|].
  inversion H as [|? ? Hs Hf]; subst. constructor; [now apply IH|].
  apply assignRanks_Forall; [|exact Hf].
  intros q r0 t Hq. exact Hq.
Qed.

Lemma assignRanks_unranked len l : forall i,
  map (fun e => unranked (snd e)) (assignRanks len i l)
  = map (fun e => unranked (snd e)) l.
Proof.
  induction l as [|[k p] r IH]; intros i; simpl; [reflexivity|].
  now rewrite IH.
Qed.

Lemma activeEntries_values ps :
  map snd (activeEntries ps) = filter ranked_player (Store.values ps).
Proof.
  unfold activeEntries, Store.values, ranked_player.
  induction ps as [|[k p] r IH]; simpl; [reflexivity|].
  destruct (is_multi (pmode p) && negb (is_lobby (pstatus p))); simpl;
    now rewrite IH.
Qed.

(** X15: in every state the server reaches, the array returned by
    [calculateRanking] is ordered: a finished player comes before every
    unfinished one, finished players are in the order of their finish
    times, and unfinished players are ordered by decreasing lap and, at
    equal lap, by increasing [z]. *)
Theorem ranking_sorted s :
  reachable s -> StronglySorted ahead (fst (calculateRanking s)).
Proof.
  intros Hr. unfold calculateRanking, rankedEntries. cbn [fst].
  apply assignRanks_sorted.
  apply (sort_sorted (fun e => finite (z (snd e)))); [auto|].
  apply Forall_forall. intros [k p] Hin.
  unfold activeEntries in Hin. apply filter_In in Hin. destruct Hin as [Hin _].
  destruct (reachable_all_sound s Hr) as [_ Hall].
  destruct (Hall k p Hin) as (_ & _ & Hz & _).
  change (Num.neg COURSE_LENGTH_Z) with (Fin (-1000)) in Hz.
  apply within_fin in Hz. destruct Hz as (q & Hq & _). now exists q.
Qed.

Lemma ranking_sorted_witness :
  StronglySorted ahead (fst (calculateRanking two_racers)).
Proof. exact (ranking_sorted two_racers two_racers_reachable). Defined.

(** X16: the array returned by [calculateRanking] holds exactly the
    players of the store with mode [multi] and a status other than
    [lobby], each once, unchanged but for [finalRank] and
    [totalPoints]. *)
Theorem ranking_members s :
  Permutation
    (map unranked (fst (calculateRanking s)))
    (map unranked (filter ranked_player (Store.values (players s)))).
Proof.
  unfold calculateRanking, rankedEntries. cbn [fst].
  rewrite map_map, assignRanks_unranked, <- activeEntries_values, map_map.
  apply Permutation_map, sort_perm.
Qed.

(** ** Ranking twice *)

Lemma replace_as_map (m : Store.t player) k v :
  NoDup (map fst m) ->
  Store.replace k v m
  = map (fun e => if String.eqb (fst e) k then (fst e, v) else e) m.
Proof.
  induction m as [|[k0 v0] r IH]; simpl; [reflexivity|].
  intros H. inversion H as [|? ? Hn Hd]; subst.
  destruct (String.eqb k0 k) eqn:E.
  - apply String.eqb_eq in E. subst k0. f_equal.
    rewrite <- (map_id r) at 1. apply map_ext_in. intros [k1 v1] Hin.
    destruct (String.eqb (fst (k1, v1)) k) eqn:E1; [|reflexivity].
    apply String.eqb_eq in E1. simpl in E1. subst k1.
    exfalso. apply Hn. change k with (fst (k, v1)). now apply in_map.
  - now rewrite IH.
Qed.

Lemma writeBack_as_map ranked : forall m : Store.t player,
  NoDup (map fst m) -> NoDup (map fst ranked) ->
  writeBack ranked m
  = map (fun e => match Store.lookup (fst e) ranked with
                  | Some v => (fst e, v)
                  | None => e
                  end) m.
Proof.
  unfold writeBack.
  induction ranked as [|[k v] r IH]; intros m Hm Hr; simpl.
  - symmetry. rewrite <- (map_id m) at 2. apply map_ext. now intros [? ?].
  - inversion Hr as [|? ? Hn Hd]; subst.
    rewrite IH; [|now rewrite keys_replace | exact Hd].
    rewrite replace_as_map by exact Hm. rewrite map_map.
    apply map_ext. intros [k1 v1]. simpl.
    destruct (String.eqb k1 k) eqn:E; simpl.
    + apply String.eqb_eq in E. subst k1. rewrite String.eqb_refl.
      destruct (Store.lookup k r) eqn:El; [|reflexivity].
      exfalso. apply Hn. apply lookup_In in El.
      change k with (fst (k, p)). now apply in_map.
    + rewrite String.eqb_sym, E. reflexivity.
Qed.

Lemma NoDup_keys_filter (f : string * player -> bool) l :
  NoDup (map fst l) -> NoDup (map fst (filter f l)).
Proof.
  induction l as [|e r IH]; simpl; [auto|].
  intros H. inversion H as [|? ? Hn Hd]; subst.
  destruct (f e); simpl; [|auto]. constructor; [|auto].
  intros Hin. apply Hn. apply in_map_iff in Hin.
  destruct Hin as (e' & E & Hin). apply filter_In in Hin.
  rewrite <- E. apply in_map. tauto.
Qed.

Lemma assignRanks_keys len l : forall i,
  map fst (assignRanks len i l) = map fst l.
Proof.
  induction l as [|[k p] r IH]; intros i; simpl; [reflexivity|].
  now rewrite IH.
Qed.

Lemma In_assignRanks len l : forall i k v,
  In (k, v) (assignRanks len i l) ->
  exists p r t, In (k, p) l /\ v = set_ranking p r t.
Proof.
  induction l as [|[k0 p0] r IH]; intros i k v; simpl; [tauto|].
  intros [H|H].
  - inversion H; subst. eauto 6.
  - destruct (IH _ _ _ H) as (p & r0 & t & Hin & E). eauto 6.
Qed.

Lemma rankedEntries_keys ps :
  NoDup (map fst ps) -> NoDup (map fst (rankedEntries ps)).
Proof.
  intros H. unfold rankedEntries. rewrite assignRanks_keys.
  apply (Permutation_NoDup
           (Permutation_sym (Permutation_map fst (sort_perm (activeEntries ps))))).
  now apply NoDup_keys_filter.
Qed.

Lemma rankedEntries_origin ps k v :
  NoDup (map fst ps) -> In (k, v) (rankedEntries ps) ->
  exists p r t, In (k, p) ps /\ v = set_ranking p r t.
Proof.
  intros Hn H. unfold rankedEntries in H. apply In_assignRanks in H.
  destruct H as (p & r & t & Hin & E). exists p, r, t. split; [|exact E].
  apply (Permutation_in _ (sort_perm (activeEntries ps))) in Hin.
  unfold activeEntries in Hin. apply filter_In in Hin. tauto.
Qed.

(** The store after [calculateRanking]. *)
Lemma writeBack_rerank ps :
  NoDup (map fst ps) ->
  writeBack (rankedEntries ps) ps = map (rerank (rankedEntries ps)) ps.
Proof.
  intros Hn. rewrite writeBack_as_map; [|exact Hn | now apply rankedEntries_keys].
  apply map_ext_in. intros [k p] Hin. unfold rerank. simpl.
  destruct (Store.lookup k (rankedEntries ps)) as [v|] eqn:El; [|reflexivity].
  apply lookup_In in El.
  destruct (rankedEntries_origin ps k v Hn El) as (p1 & r & t & Hin1 & ->).
  assert (E : (k, p1) = (k, p)).
  { apply (NoDup_map_inj fst ps); auto. }
  inversion E; subst. reflexivity.
Qed.

Lemma rerank_fields ranked e :
  fst (rerank ranked e) = fst e /\
  unranked (snd (rerank ranked e)) = unranked (snd e).
Proof.
  unfold rerank. destruct (Store.lookup (fst e) ranked); auto.
Qed.

Lemma compareRank_unranked a b a' b' :
  unranked a' = unranked a -> unranked b' = unranked b ->
  compareRank a' b' = compareRank a b.
Proof.
  intros Ha Hb.
  change (compareRank (unranked a') (unranked b')
          = compareRank (unranked a) (unranked b)).
  now rewrite Ha, Hb.
Qed.

Section Rerank.
Variable g : string * player -> string * player.
Hypothesis g_fields : forall e,
  fst (g e) = fst e /\ unranked (snd (g e)) = unranked (snd e).

Lemma insert_map a l :
  insert compareRank (g a) (map g l) = map g (insert compareRank a l).
Proof.
  induction l as [|e r IH]; cbn [insert map]; [reflexivity|].
  rewrite (compareRank_unranked (snd a) (snd e) (snd (g a)) (snd (g e)))
    by apply g_fields.
  destruct (Num.ltb (Fin 0) (compareRank (snd a) (snd e))); cbn [map];
    [now rewrite IH | reflexivity].
Qed.

Lemma sort_map l : sort compareRank (map g l) = map g (sort compareRank l).
Proof.
  induction l as [|a r IH]; cbn [sort map]; [reflexivity|].
  now rewrite IH, insert_map.
Qed.

Lemma activeEntries_map l : activeEntries (map g l) = map g (activeEntries l).
Proof.
  unfold activeEntries. induction l as [|e r IH]; simpl; [reflexivity|].
  destruct (g_fields e) as [_ Hu].
  assert (Hm : pmode (snd (g e)) = pmode (snd e))
    by exact (f_equal pmode Hu).
  assert (Hs : pstatus (snd (g e)) = pstatus (snd e))
    by exact (f_equal pstatus Hu).
  rewrite Hm, Hs.
  destruct (is_multi (pmode (snd e)) && negb (is_lobby (pstatus (snd e))));
    simpl; now rewrite IH.
Qed.

Lemma assignRanks_map len l : forall i,
  assignRanks len i (map g l) = assignRanks len i l.
Proof.
  induction l as [|e r IH]; intros i; simpl; [reflexivity|].
  destruct (g_fields e) as [Hk Hu]. destruct (g e) as [k q].
  destruct e as [k0 p0]. simpl in *. subst k. rewrite IH.
  assert (Hp : points q = points p0) by exact (f_equal points Hu).
  rewrite Hp. do 2 f_equal.
  destruct q, p0. unfold unranked in Hu. simpl in *.
  inversion Hu; subst. reflexivity.
Qed.

Lemma rankedEntries_map l : rankedEntries (map g l) = rankedEntries l.
Proof.
  unfold rankedEntries.
  rewrite activeEntries_map, sort_map, assignRanks_map, length_map.
  reflexivity.
Qed.

Lemma lookup_map_fields l k :
  option_map unranked (Store.lookup k (map g l))
  = option_map unranked (Store.lookup k l).
Proof.
  induction l as [|e r IH]; simpl; [reflexivity|].
  destruct (g_fields e) as [Hk Hu]. destruct (g e) as [k1 q].
  destruct e as [k0 p0]. simpl in *. subst k1.
  destruct (String.eqb k0 k); [simpl; now rewrite Hu | exact IH].
Qed.

End Rerank.

(** X17: in every state the server reaches, [calculateRanking] writes
    nothing but [finalRank] and [totalPoints] (every player of the store
    keeps all its other fields, and obstacles and timers are untouched),
    and a second call on the state it leaves returns the same array. *)
Theorem ranking_idempotent s :
  reachable s ->
  let s1 := snd (calculateRanking s) in
  fst (calculateRanking s1) = fst (calculateRanking s) /\
  (forall k,
     option_map unranked (Store.lookup k (players s1))
     = option_map unranked (Store.lookup k (players s))) /\
  obstacles s1 = obstacles s /\ timers s1 = timers s.
Proof.
  intros Hr. destruct (reachable_well_formed s Hr) as (Hk & _).
  unfold calculateRanking. cbn [fst snd]. unfold with_players. cbn [players].
  rewrite writeBack_rerank by exact Hk.
  split; [|split; [|auto]].
  - f_equal. apply rankedEntries_map. apply rerank_fields.
  - intros k. apply lookup_map_fields. apply rerank_fields.
Qed.

Lemma ranking_idempotent_witness :
  fst (calculateRanking (snd (calculateRanking two_racers)))
  = fst (calculateRanking two_racers).
Proof. exact (proj1 (ranking_idempotent two_racers two_racers_reachable)). Defined.

(** ** Distances *)

Lemma pow2_sub_comm a b : Num.pow2 (Num.sub a b) = Num.pow2 (Num.sub b a).
Proof.
  destruct a as [| |p|], b as [| |q|]; try reflexivity.
  unfold Num.pow2, Num.sub, Num.neg, Num.add, Num.mul. f_equal.
  apply Qred_complete.
  pose proof (Qred_correct (- q)) as H1.
  pose proof (Qred_correct (- p)) as H2.
  pose proof (Qred_correct (p + Qred (- q))) as H3.
  pose proof (Qred_correct (q + Qred (- p))) as H4.
  assert (E1 : Qred (p + Qred (- q)) == p - q) by lra.
  assert (E2 : Qred (q + Qred (- p)) == - (p - q)) by lra.
  rewrite E1, E2. ring.
Qed.

(** X18: the distance test is symmetric, so at given positions the
    clash test of the player pass gives the same answer in the update of
    either of two multiplayer players who are both playing. *)
Theorem clash_test_symmetric :
  (forall x1 z1 x2 z2 t,
     getDistance_lt x1 z1 x2 z2 t = getDistance_lt x2 z2 x1 z1 t) /\
  (forall a p b q,
     is_multi (pmode p) = true -> is_playing (pstatus p) = true ->
     is_multi (pmode q) = true -> is_playing (pstatus q) = true ->
     clashes a p b q = clashes b q a p).
Proof.
  assert (H : forall x1 z1 x2 z2 t,
            getDistance_lt x1 z1 x2 z2 t = getDistance_lt x2 z2 x1 z1 t).
  { intros. unfold getDistance_lt, sqDistance.
    now rewrite (pow2_sub_comm x1 x2), (pow2_sub_comm z1 z2). }
  split; [exact H|].
  intros a p b q Hp1 Hp2 Hq1 Hq2. unfold clashes.
  rewrite Hp1, Hp2, Hq1, Hq2, (String.eqb_sym b a), (H (x p) (z p)).
  reflexivity.
Qed.

Lemma clash_test_symmetric_witness :
  clashes "P1" (racer "P1" 0) "P2" (racer "P2" 1)
  = clashes "P2" (racer "P2" 1) "P1" (racer "P1" 0).
Proof.
  apply (proj2 clash_test_symmetric); reflexivity.
Defined.

(** ** Handlers in sequence *)



(** ** Points *)

Lemma hit_points_bound p i o :
  0 <= award o -> 
  points p <= points (fst (fst (hit p i o))) <= points p + award o.
Proof.
  unfold hit, award. destruct (checkCollision p o); [|simpl; lia].
  destruct (collided o); [simpl; lia|].
  destruct (otype o) as [pts|eff]; [simpl; lia|].
  destruct (String.eqb eff "speed_x2"); simpl; lia.
Qed.

Lemma obstaclePass_points_bound l : forall p i,
  Forall (fun o => 0 <= award o) l ->
  points p <= points (fst (fst (obstaclePass p i l)))
  <= points p + fold_right (fun o acc => award o + acc) 0 l.
Proof.
  induction l as [|o r IH]; intros p i H; simpl; [lia|].
  inversion H as [|? ? Ho Hr]; subst.
  pose proof (hit_points_bound p i o Ho) as H1.
  destruct (hit p i o) as [[p1 o1] t1]. simpl in H1.
  specialize (IH p1 (S i) Hr).
  destruct (obstaclePass p1 (S i) r) as [[p2 r2] t2]. simpl in *. lia.
Qed.

Lemma award_layout s :
  course_layout s ->
  map award (obstacles s) = [5; 5; 5; 5; 20].
Proof.
  unfold course_layout. intros H.
  change [5; 5; 5; 5; 20] with (map award obstacles0). rewrite <- H.
  rewrite map_map. apply map_ext. intros o. reflexivity.
Qed.

(** X20: in a state the server reaches, one sensor update never lowers
    the points of the updated player and adds at most the 40 points of
    the whole course. *)
Theorem sensor_update_points s clientId d now p :
  reachable s ->
  Store.lookup clientId (players s) = Some p ->
  exists s' p',
    updateGameLogic clientId (Some d) now s = Ok s' /\
    Store.lookup clientId (players s') = Some p' /\
    points p <= points p' <= points p + 40.
Proof.
  intros Hr Hl.
  destruct (updateGameLogic_self clientId d now s p Hl) as (s' & Hu & Hl').
  exists s'. eexists. split; [exact Hu|]. split; [exact Hl'|].
  destruct (is_playing (pstatus p)); cbv iota; [|lia].
  unfold updatedPlayer.
  destruct (lapCheck_fields now (afterPlayers clientId d p s))
    as (_&_&_&_&_&_&_&Hp'&_).
  rewrite Hp'. unfold afterPlayers.
  destruct (playerPass_player clientId (players s) (afterObstacles d p s))
    as (_ & Hpp & _).
  rewrite Hpp. unfold afterObstacles.
  destruct (integrate_fields d p) as (_&_&_&_&_&_&_&Hpi&_).
  destruct (reachable_all_sound s Hr) as [Hlay _].
  pose proof (award_layout s Hlay) as Ha.
  assert (Hf : Forall (fun o => 0 <= award o) (obstacles s)).
  { apply Forall_forall. intros o Hin.
    assert (Hin' : In (award o) (map award (obstacles s))) by now apply in_map.
    rewrite Ha in Hin'. simpl in Hin'. lia. }
  pose proof (obstaclePass_points_bound (obstacles s) (integrate d p) 0 Hf) as Hb.
  assert (Hs : fold_right (fun o acc => award o + acc) 0 (obstacles s)
               = fold_right Z.add 0 (map award (obstacles s))).
  { clear. induction (obstacles s) as [|o r IH]; simpl; [reflexivity|].
    now rewrite IH. }
  rewrite Hs, Ha, Hpi in Hb. cbn [fold_right] in Hb. lia.
Qed.

Lemma sensor_update_points_witness :
  exists s' p',
    updateGameLogic "P1" (Some calm) 0 after_box = Ok s' /\
    Store.lookup "P1" (players s') = Some p' /\
    5 <= points p' <= 45.
Proof.
  destruct (Store.lookup "P1" (players after_box)) as [p|] eqn:Hl;
    [|vm_compute in Hl; discriminate Hl].
  destruct (sensor_update_points after_box "P1" calm 0 p after_box_reachable Hl)
    as (s' & p' & Hu & Hl' & H).
  exists s', p'. split; [exact Hu|]. split; [exact Hl'|].
  assert (Hp : points p = 5).
  { vm_compute in Hl. inversion Hl. reflexivity. }
  rewrite Hp in H. exact H.
Defined.

(** ** The earlier variant *)







(** ** The player-player pass *)

(** X23: in the update of a playing player the charge of another
    player is raised by 2, capped at 10, exactly when both have mode
    [multi], the other one is playing, and it is closer than
    [PLAYER_COLLISION_RADIUS] to the position the updated player has
    after its forward move and before the lap check wraps [z]; every
    other player is left as it is. *)
Theorem sensor_update_peer clientId d now s p other q :
  Store.lookup clientId (players s) = Some p ->
  pstatus p = playing ->
  other <> clientId ->
  Store.lookup other (players s) = Some q ->
  exists s',
    updateGameLogic clientId (Some d) now s = Ok s' /\
    Store.lookup other (players s')
    = Some (if is_multi (pmode p) && is_multi (pmode q)
               && is_playing (pstatus q)
               && getDistance_lt (x (integrate d p)) (z (integrate d p))
                    (x q) (z q) PLAYER_COLLISION_RADIUS
            then chargeUp q else q).
Proof.
  intros Hl Hp Hne Hq.
  rewrite (updateGameLogic_playing clientId d now s p Hl Hp).
  eexists. split; [reflexivity|]. cbn [players].
  assert (Hk : String.eqb clientId other = false).
  { apply String.eqb_neq. congruence. }
  assert (Hk' : String.eqb other clientId = false).
  { apply String.eqb_neq. exact Hne. }
  rewrite lookup_set, Hk, playerPass_store, Hq. f_equal.
  pose proof (obstaclePass_same_course (obstacles s) (integrate d p) 0) as Ho.
  fold (afterObstacles d p s) in Ho.
  destruct (integrate_fields d p) as (_&_&_&_&_&Hm1&_).
  unfold same_course in Ho. destruct Ho as (_&_&Hx&_&Hz&_&_&_&Hm2&_).
  unfold clashes. rewrite Hk', <- Hx, <- Hz, <- Hm2, Hm1. cbn [negb andb].
  now rewrite !andb_assoc.
Qed.

Lemma sensor_update_peer_witness :
  exists s',
    updateGameLogic "P1" (Some calm) 0 two_racers = Ok s' /\
    Store.lookup "P2" (players s') = Some (chargeUp (racer "P2" 1)).
Proof.
  assert (Hne : "P2"%string <> "P1"%string) by discriminate.
  destruct (sensor_update_peer "P1" calm 0 two_racers (racer "P1" 0)
              "P2" (racer "P2" 1) eq_refl eq_refl Hne eq_refl)
    as (s' & Hu & Hl).
  exists s'. split; [exact Hu|]. rewrite Hl.
  vm_compute. reflexivity.
Defined.

Lemma sensor_update_frame_witness :
  exists s',
    updateGameLogic "P1" (Some calm) 0 two_racers = Ok s' /\
    "P2"%string <> "P1"%string /\
    Store.lookup "P2" (players two_racers) = Some (racer "P2" 1) /\
    exists q',
      Store.lookup "P2" (players s') = Some q' /\
      q' = set_gekitotsuForce (racer "P2" 1) (gekitotsuForce q').
Proof.
  assert (H0 : Store.lookup "P1" (players two_racers) = Some (racer "P1" 0))
    by reflexivity.
  destruct (updateGameLogic_self "P1" calm 0 two_racers _ H0) as (s' & H1 & _).
  assert (H2 : "P2"%string <> "P1"%string) by discriminate.
  assert (H3 : Store.lookup "P2" (players two_racers) = Some (racer "P2" 1))
    by reflexivity.
  destruct (sensor_update_frame "P1" (Some calm) 0 two_racers s' "P2" _ H1 H2 H3)
    as (q' & Hq & He & _).
  exists s'. split; [exact H1|]. split; [exact H2|]. split; [exact H3|].
  exists q'. split; [exact Hq | exact He].
Defined.
